(** * Website-Resolution-Tester: the crawl / capture pipeline of [index.js]

    A shallow embedding of [index.js] and the properties of its crawl loop,
    link filter and output-path builder.

    The browser (puppeteer), the WHATWG URL parser and the directory the
    script lives in are the environment: they are the fields of [World].
    The three values configured at the bottom of the script are [Config].
    Everything the script does that is visible from outside is appended to
    a log of [event]s.

    The failures that are modelled are the one the script catches (a
    rejected [page.goto]), the two its own data decide ([new URL] on an
    [href] that is not a URL, and [path.join] on the undefined host name of
    a URL without segments), and those of the calls made to the file system
    and to the browser after the navigation: creating the directory, taking
    a screenshot, writing a file, asking the page for its links.  Whether
    one of these calls throws is for the environment to say, knowing
    everything the run did before (a file cannot be written where the run
    made a directory).  None but the first is caught, so any of the others
    ends the run. *)

From Stdlib Require Import Ascii String DecimalString.
From stdpp Require Import base gmap sets list strings.

Local Open Scope list_scope.
Local Open Scope string_scope.

(** ** JavaScript string primitives used by the script *)
Module JS.

(** [s.startsWith(p)] *)
Definition startsWith (s p : string) : bool := String.prefix p s.

(** [s.includes(word)]: [word] occurs at some position of [s]. *)
Fixpoint includes (s word : string) : bool :=
  String.prefix word s ||
  match s with
  | EmptyString => false
  | String _ s' => includes s' word
  end.

(** [s.split(sep)] for a one-character separator: never the empty array. *)
Fixpoint split (sep : ascii) (s : string) : list string :=
  match s with
  | EmptyString => [EmptyString]
  | String c s' =>
      if Ascii.eqb c sep then EmptyString :: split sep s'
      else match split sep s' with
           | [] => [String c EmptyString]
           | seg :: segs => String c seg :: segs
           end
  end.

(** [s.replace(/[...]/g, '')] for a character class [cls]. *)
Fixpoint strip (cls : ascii -> bool) (s : string) : string :=
  match s with
  | EmptyString => EmptyString
  | String c s' => if cls c then strip cls s' else String c (strip cls s')
  end.

(** [segs.join(sep)] *)
Fixpoint join (sep : string) (segs : list string) : string :=
  match segs with
  | [] => EmptyString
  | [seg] => seg
  | seg :: segs' => seg ++ sep ++ join sep segs'
  end.

(** Does the character occur in the string? *)
Fixpoint has_char (c : ascii) (s : string) : bool :=
  match s with
  | EmptyString => false
  | String c' s' => Ascii.eqb c' c || has_char c s'
  end.

End JS.

(** ** Node's [path.join], POSIX flavour

    [path.join] drops zero-length arguments, glues the rest with [/] and
    normalizes: empty and [.] components disappear, [..] removes the
    component before it.  A path is handled as its list of components. *)
Module Path.

(** One component pushed on the normalized prefix [res] (last component
    first). [allowAboveRoot] is true for relative paths only. *)
Definition push_component (allowAboveRoot : bool) (res : list string) (seg : string)
  : list string :=
  if String.eqb seg "" || String.eqb seg "." then res
  else if String.eqb seg ".." then
    match res with
    | [] => if allowAboveRoot then [".."] else []
    | top :: below =>
        if String.eqb top ".." then (if allowAboveRoot then ".." :: res else res)
        else below
    end
  else seg :: res.

Definition normalizeString (segs : list string) (allowAboveRoot : bool) : list string :=
  rev (fold_left (push_component allowAboveRoot) segs []).

Definition isAbsolute (p : string) : bool :=
  match p with
  | String c _ => Ascii.eqb c "/"
  | EmptyString => false
  end.

Fixpoint trailingSeparator (p : string) : bool :=
  match p with
  | EmptyString => false
  | String c EmptyString => Ascii.eqb c "/"
  | String _ p' => trailingSeparator p'
  end.

Definition normalize (p : string) : string :=
  if String.eqb p "" then "."
  else
    let body := JS.join "/" (normalizeString (JS.split "/" p) (negb (isAbsolute p))) in
    if String.eqb body "" then
      if isAbsolute p then "/" else if trailingSeparator p then "./" else "."
    else
      let body := if trailingSeparator p then body ++ "/" else body in
      if isAbsolute p then "/" ++ body else body.

Definition join (args : list string) : string :=
  match filter (fun arg => arg <> "") args with
  | [] => "."
  | parts => normalize (JS.join "/" parts)
  end.

End Path.

(** ** The environment and the configuration *)

(** What the script reads of a [new URL(href, base)] object. *)
Record URL := { url_href : string; url_hostname : string }.

(** The page the browser shows after a successful [page.goto]:
    [window.location.href] and, for every [<a>] in document order,
    [getAttribute('href')] ([None] is [null]). *)
Record Page := { location_href : string; anchors : list (option string) }.

(** A value handed to [page.setViewport]: [Number(s)] of a piece of the
    resolution string, or [undefined] when the piece is missing. *)
Inductive JSValue :=
  | Number (s : string)
  | undefined.

(** What a run does, in order. *)
Inductive event :=
  | Shift (currentUrl : string)
  | SkipVisited (currentUrl : string)
  | Goto (currentUrl : string) (ok : bool)
  | CapturePage (url : string)
  | EnsureDir (directory : string)
  | Screenshot (url resolution : string) (width height : JSValue)
  | WriteFile (filename : string)
  | GetLinks (currentUrl : string)
  | Push (link : string).

(** [newURL href base] is [new URL(href, base)]; [None] is the [TypeError]
    of an invalid URL.  [page_goto n u] is the [n]-th navigation of the run,
    to [u]; [None] is a rejected [page.goto] (timeout or load error).
    [dirname] is [__dirname].  [fails done op] says whether the call [op]
    throws for a reason of the environment when it is made after the run
    did [done]; [op] is a call of the capture ([EnsureDir], [Screenshot],
    [WriteFile]) or the call of the link extraction ([GetLinks], that is
    [page.title] and [page.evaluate]). *)
Record World := {
  newURL : string -> string -> option URL;
  page_goto : nat -> string -> option Page;
  dirname : string;
  fails : list event -> event -> bool
}.

(** The three constants under "Configure these values ONLY". *)
Record Config := {
  cfg_url : string;
  cfg_resolutions : list string;
  cfg_domain : string
}.

(** ** [captureScreenshotsForPage] *)

(** The character class of the [regex] of line 36: the control characters
    below 0x20 and the nine characters listed here (034 is the double
    quote). *)
Definition unsafe_char (c : ascii) : bool :=
  (nat_of_ascii c <? 32)%nat ||
  existsb (Ascii.eqb c)
    ["<"; ">"; ":"; "034"; "/"; "\"; "|"; "?"; "*"]%char.

(** [url.split('/').filter(segment => segment && segment !== 'https:')] *)
Definition segments (url : string) : list string :=
  List.filter (fun segment => negb (String.eqb segment "") && negb (String.eqb segment "https:"))
    (JS.split "/" url).

Definition safeSegments (segs : list string) : list string :=
  map (JS.strip unsafe_char) (tail segs).

(** [path.join(__dirname, 'images', hostname, ...safeSegments)]; a URL
    without segments leaves [hostname] undefined and [path.join] throws. *)
Definition directoryFor (w : World) (url : string) : option string :=
  match segments url with
  | [] => None
  | hostname :: _ =>
      Some (Path.join (dirname w :: "images" :: hostname :: safeSegments (segments url)))
  end.

(** [path.join(directory, `${resolution}.png`)] *)
Definition filenameIn (directory resolution : string) : string :=
  Path.join [directory; resolution ++ ".png"].

Definition filenameFor (w : World) (url resolution : string) : option string :=
  match directoryFor w url with
  | None => None
  | Some directory => Some (filenameIn directory resolution)
  end.

(** [const [width, height] = resolution.split('x').map(Number)] *)
Definition widthHeight (resolution : string) : JSValue * JSValue :=
  let parts := map Number (JS.split "x" resolution) in
  (nth 0 parts undefined, nth 1 parts undefined).

(** One turn of the [for (const resolution of resolutions)] loop. *)
Definition captureOne (url directory resolution : string) : list event :=
  let '(width, height) := widthHeight resolution in
  [Screenshot url resolution width height; WriteFile (filenameIn directory resolution)].

(** The calls [captureScreenshotsForPage] makes once it has the
    directory, in order: line 41, then lines 46 and 50 for each resolution. *)
Definition captureCalls (url directory : string) (resolutions : list string) : list event :=
  EnsureDir directory :: concat (map (captureOne url directory) resolutions).

(** The calls made one after the other, after the run did [done], up to
    the first that throws: those that went through, and whether one threw. *)
Fixpoint perform (w : World) (done : list event) (calls : list event) : list event * bool :=
  match calls with
  | [] => ([], false)
  | op :: calls' =>
      if fails w done op then ([], true)
      else
        let '(went, threw) := perform w (done ++ [op])%list calls' in
        (op :: went, threw)
  end.

(** How [captureScreenshotsForPage] ends, with the calls that went through. *)
Inductive capture :=
  | Captured (went : list event)
  | CaptureThrew (went : list event).

(** [captureScreenshotsForPage] after the run did [done]: [path.join]
    throws on an undefined host name before any call is made; otherwise
    the calls are made until one throws. *)
Definition captureScreenshotsForPage (w : World) (url : string) (resolutions : list string)
    (done : list event) : capture :=
  match directoryFor w url with
  | None => CaptureThrew []
  | Some directory =>
      match perform w done (captureCalls url directory resolutions) with
      | (went, false) => Captured went
      | (went, true) => CaptureThrew went
      end
  end.

(** ** [getLinksFromPage] *)

Definition illegal_words : list string := ["mailto:"; "tel:"; "javascript:"; "#"].

(** [!href || [...].some(word => href.includes(word))] *)
Definition illegal (href : option string) : bool :=
  match href with
  | None => true
  | Some href => String.eqb href "" || existsb (JS.includes href) illegal_words
  end.

(** What one turn of the [for] loop over the anchors does with [links]. *)
Inductive verdict :=
  | Skipped
  | Pushed (link : string)
  | Thrown.

Definition checkAnchor (w : World) (location domain : string) (a : option string) : verdict :=
  if illegal a then Skipped
  else
    match a with
    | None => Skipped
    | Some href =>
        match newURL w href location with
        | None => Thrown
        | Some u =>
            if negb (String.eqb (url_hostname u) domain) then Skipped
            else if negb (JS.includes href "://") then
              match newURL w href location with
              | None => Thrown
              | Some u' => Pushed (url_href u')
              end
            else Pushed href
        end
    end.

(** The loop over [elements], [links] being the array built so far;
    [None] when [new URL] throws, which rejects [page.evaluate]. *)
Fixpoint scanAnchors (w : World) (location domain : string)
    (elements : list (option string)) (links : list string) : option (list string) :=
  match elements with
  | [] => Some links
  | a :: elements' =>
      match checkAnchor w location domain a with
      | Skipped => scanAnchors w location domain elements' links
      | Pushed link => scanAnchors w location domain elements' (links ++ [link])%list
      | Thrown => None
      end
  end.

Definition getLinksFromPage (w : World) (page : Page) (domain : string) : option (list string) :=
  scanAnchors w (location_href page) domain (anchors page) [].

(** ** [captureScreenshotsForAllPages] *)

(** The variables of the main function, and the log of what was done. *)
Record state := {
  queue : list string;
  visited : gset string;
  visitedCount : nat;
  log : list event
}.

Definition emit (evs : list event) (s : state) : state :=
  {| queue := queue s; visited := visited s; visitedCount := visitedCount s;
     log := (log s ++ evs)%list |}.

(** [queue.push(link)] *)
Definition push (link : string) (s : state) : state :=
  {| queue := (queue s ++ [link])%list; visited := visited s;
     visitedCount := visitedCount s; log := (log s ++ [Push link])%list |}.

(** [visited.has(x)] *)
Definition has (vis : gset string) (x : string) : bool := bool_decide (x ∈ vis).

(** [visited.add(currentUrl); visitedCount ++] *)
Definition markVisited (currentUrl : string) (s : state) : state :=
  {| queue := queue s; visited := {[ currentUrl ]} ∪ visited s;
     visitedCount := S (visitedCount s); log := log s |}.

(** The body of [for (const link of links)], lines 160-170. *)
Definition checkLink (cfg : Config) (s : state) (link : string) : state :=
  if negb (has (visited s) link) && JS.startsWith link (cfg_url cfg)
  then push link s
  else s.

(** How one turn of the [while] loop ends: normally (also by [continue]),
    or by an exception nothing catches. *)
Inductive completion :=
  | Normal (s : state)
  | Throw (s : state).

(** The body of the [while] loop after [queue.shift()] returned
    [currentUrl].  The [continue] on an empty [links] needs no case of its
    own: the [for] loop over no links does nothing.  A call of the capture
    is in the log when it went through; [GetLinks] is in the log when
    [getLinksFromPage] was called, whether it returned or threw. *)
Definition loopBody (w : World) (cfg : Config) (currentUrl : string) (s : state)
  : completion :=
  if has (visited s) currentUrl then Normal (emit [SkipVisited currentUrl] s)
  else
    let s := markVisited currentUrl s in
    match page_goto w (visitedCount s) currentUrl with
    | None => Normal (emit [Goto currentUrl false] s)
    | Some page =>
        let s := emit [Goto currentUrl true; CapturePage currentUrl] s in
        match captureScreenshotsForPage w currentUrl (cfg_resolutions cfg) (log s) with
        | CaptureThrew went => Throw (emit went s)
        | Captured went =>
            let s := emit went s in
            if fails w (log s) (GetLinks currentUrl)
            then Throw (emit [GetLinks currentUrl] s)
            else
              let s := emit [GetLinks currentUrl] s in
              match getLinksFromPage w page (cfg_domain cfg) with
              | None => Throw s
              | Some links => Normal (fold_left (checkLink cfg) links s)
              end
        end
    end.

(** [queue.shift()] on a queue whose head is [currentUrl]. *)
Definition shift (currentUrl : string) (rest : list string) (s : state) : state :=
  {| queue := rest; visited := visited s; visitedCount := visitedCount s;
     log := (log s ++ [Shift currentUrl])%list |}.

(** How a run ends: the queue emptied, an exception escaped the loop, or
    the turns allowed by [fuel] were used up with the queue not empty. *)
Inductive outcome :=
  | Done (s : state)
  | Aborted (s : state)
  | OutOfFuel (s : state).

Definition final (o : outcome) : state :=
  match o with Done s | Aborted s | OutOfFuel s => s end.

(** [while (queue.length > 0) { ... }] *)
Fixpoint whileQueue (w : World) (cfg : Config) (fuel : nat) (s : state) : outcome :=
  match queue s with
  | [] => Done s
  | currentUrl :: rest =>
      match fuel with
      | O => OutOfFuel s
      | S fuel' =>
          match loopBody w cfg currentUrl (shift currentUrl rest s) with
          | Normal s' => whileQueue w cfg fuel' s'
          | Throw s' => Aborted s'
          end
      end
  end.

(** [const queue = [url]; const visited = new Set(); var visitedCount = 0] *)
Definition initial (cfg : Config) : state :=
  {| queue := [cfg_url cfg]; visited := ∅; visitedCount := 0; log := [] |}.

Definition captureScreenshotsForAllPages (w : World) (cfg : Config) (fuel : nat) : outcome :=
  whileQueue w cfg fuel (initial cfg).

(** ** A small site to run the script on *)
Module Demo.

(** Facts of the WHATWG URL parser used below, base [https://example.com/...]. *)
Definition parseURL (href base : string) : option URL :=
  if String.eqb href "http://" then None
  else if String.eqb href "/a" then
    Some {| url_href := "https://example.com/a"; url_hostname := "example.com" |}
  else if String.eqb href "/b" then
    Some {| url_href := "https://example.com/b"; url_hostname := "example.com" |}
  else if String.eqb href "https://example.com" then
    Some {| url_href := "https://example.com/"; url_hostname := "example.com" |}
  else if String.eqb href "https://example.com/.." then
    Some {| url_href := "https://example.com/"; url_hostname := "example.com" |}
  else if String.eqb href "https://other.com/x" then
    Some {| url_href := "https://other.com/x"; url_hostname := "other.com" |}
  else if String.eqb href "mailto:x@y.com" then
    Some {| url_href := "mailto:x@y.com"; url_hostname := "" |}
  else if String.eqb href "/a/1024x768.png" then
    Some {| url_href := "https://example.com/a/1024x768.png";
            url_hostname := "example.com" |}
  else if String.eqb href "https://example.com/docs/../x" then
    Some {| url_href := "https://example.com/x"; url_hostname := "example.com" |}
  else None.

Definition cfg : Config :=
  {| cfg_url := "https://example.com/";
     cfg_resolutions := ["800x600"; "1024x768"];
     cfg_domain := "example.com" |}.

(** The seed page links to [/a] twice and to [/b], and carries a foreign
    link, a [mailto:] link and an anchor without [href]; [/a] links to [/b]
    and to a fragment of itself; [/b] cannot be loaded. *)
Definition site (n : nat) (u : string) : option Page :=
  if String.eqb u "https://example.com/" then
    Some {| location_href := u;
            anchors := [Some "/a"; Some "https://other.com/x"; Some "mailto:x@y.com";
                        None; Some "/a"; Some "/b"] |}
  else if String.eqb u "https://example.com/a" then
    Some {| location_href := u; anchors := [Some "/b"; Some "/a#top"] |}
  else None.

Definition world : World :=
  {| newURL := parseURL; page_goto := site; dirname := "/work";
     fails := fun _ _ => false |}.

(** The same site with a page [/a] that carries an anchor whose [href]
    the URL parser refuses. *)
Definition brokenSite (n : nat) (u : string) : option Page :=
  if String.eqb u "https://example.com/" then
    Some {| location_href := u; anchors := [Some "/a"; Some "/b"] |}
  else if String.eqb u "https://example.com/a" then
    Some {| location_href := u; anchors := [Some "http://"] |}
  else None.

Definition broken : World :=
  {| newURL := parseURL; page_goto := brokenSite; dirname := "/work";
     fails := fun _ _ => false |}.

(** A site whose seed page links to [https://example.com/..], a URL the
    browser loads as the seed page again. *)
Definition dottedSite (n : nat) (u : string) : option Page :=
  if String.eqb u "https://example.com/" then
    Some {| location_href := u; anchors := [Some "https://example.com/.."] |}
  else if String.eqb u "https://example.com/.." then
    Some {| location_href := "https://example.com/"; anchors := [] |}
  else None.

Definition dotted : World :=
  {| newURL := parseURL; page_goto := dottedSite; dirname := "/work";
     fails := fun _ _ => false |}.

(** A file cannot be written where the run made a directory. *)
Definition directoryInTheWay (done : list event) (op : event) : bool :=
  match op with
  | WriteFile filename =>
      existsb (fun e => match e with
                        | EnsureDir directory => String.eqb directory filename
                        | _ => false
                        end) done
  | _ => false
  end.

(** A site with a page whose last segment is the file name of a
    resolution: its directory is where a screenshot of [/a] has to go. *)
Definition nestedSite (n : nat) (u : string) : option Page :=
  if String.eqb u "https://example.com/" then
    Some {| location_href := u; anchors := [Some "/a/1024x768.png"; Some "/a"] |}
  else if String.eqb u "https://example.com/a/1024x768.png" then
    Some {| location_href := u; anchors := [] |}
  else if String.eqb u "https://example.com/a" then
    Some {| location_href := u; anchors := [Some "/b"] |}
  else None.

Definition nested : World :=
  {| newURL := parseURL; page_goto := nestedSite; dirname := "/work";
     fails := directoryInTheWay |}.

End Demo.

(** ** Vocabulary of the properties *)

(** The state a turn of the loop leaves behind, however it ends. *)
Definition after (c : completion) : state :=
  match c with Normal s | Throw s => s end.

(** The links of [links] that pass the test of line 163, in order. *)
Definition admitted (cfg : Config) (vis : gset string) (links : list string) : list string :=
  List.filter (fun link => negb (has vis link) && JS.startsWith link (cfg_url cfg)) links.

(** The four things done to a page. *)
Inductive action := Navigate | Capture | Shot | Extract.

Definition performs (a : action) (U : string) (e : event) : bool :=
  match a, e with
  | Navigate, Goto u _ => String.eqb u U
  | Capture, CapturePage u => String.eqb u U
  | Shot, Screenshot u _ _ _ => String.eqb u U
  | Extract, GetLinks u => String.eqb u U
  | _, _ => false
  end.

(** How many times [a] was done to [U] in a log. *)
Definition times (a : action) (U : string) (l : list event) : nat :=
  length (List.filter (performs a U) l).

(** The URLs taken from the queue, and those appended to it, in order. *)
Definition shifted (l : list event) : list string :=
  omap (fun e => match e with Shift u => Some u | _ => None end) l.

Definition pushed (l : list event) : list string :=
  omap (fun e => match e with Push u => Some u | _ => None end) l.

(** The URLs navigated to, in order. *)
Definition navigated (l : list event) : list string :=
  omap (fun e => match e with Goto u _ => Some u | _ => None end) l.

(** A list without the repetitions of its elements: each element stays
    where it first occurs. *)
Definition firstOccurrences (l : list string) : list string :=
  rev (remove_dups (rev l)).

(** Breadth-first bookkeeping: the pages are navigated to in the order in
    which they first left the queue, and [visited] holds the URLs that left
    the queue. *)
Definition breadthFirst (s : state) : Prop :=
  navigated (log s) = firstOccurrences (shifted (log s)) /\
  forall u, u ∈ visited s <-> In u (shifted (log s)).

(** First in, first out: the URLs that left the queue followed by those
    still in it are the seed followed by the URLs pushed, in that order. *)
Definition fifo (cfg : Config) (s : state) : Prop :=
  (shifted (log s) ++ queue s)%list = cfg_url cfg :: pushed (log s).

(** Every URL in the queue, and every URL ever pushed, starts with the seed. *)
Definition underSeed (cfg : Config) (s : state) : Prop :=
  forall link, In link (queue s) \/ In (Push link) (log s) ->
    exists t, link = cfg_url cfg ++ t.

(** The resolutions of the screenshots of a log, and the files written. *)
Definition shotResolutions (l : list event) : list string :=
  omap (fun e => match e with Screenshot _ r _ _ => Some r | _ => None end) l.

Definition written (l : list event) : list string :=
  omap (fun e => match e with WriteFile f => Some f | _ => None end) l.

(** How often [a] may be done to one URL in a run. *)
Definition quota (cfg : Config) (a : action) : nat :=
  match a with
  | Shot => length (cfg_resolutions cfg)
  | _ => 1
  end.

(** A call the capture makes. *)
Definition isCall (e : event) : bool :=
  match e with
  | EnsureDir _ | Screenshot _ _ _ _ | WriteFile _ => true
  | _ => false
  end.

(** The calls the capture of [u] has to make: none when [path.join]
    throws. *)
Definition plan (w : World) (cfg : Config) (u : string) : list event :=
  match directoryFor w u with
  | Some directory => captureCalls u directory (cfg_resolutions cfg)
  | None => []
  end.

(** What a turn of the loop logs for a URL [u] it had not seen, up to the
    pushes: a failed navigation; a navigation and a capture that throws,
    with the calls that went through before; a navigation, all the calls
    of the capture, and the link extraction. *)
Definition visitEvents (w : World) (cfg : Config) (u : string) (evs : list event) : Prop :=
  evs = [Goto u false] \/
  (exists went rest,
     plan w cfg u = (went ++ rest)%list /\
     evs = ([Goto u true; CapturePage u] ++ went)%list) \/
  exists directory,
    directoryFor w u = Some directory /\
    evs = ([Goto u true; CapturePage u; EnsureDir directory]
             ++ concat (map (captureOne u directory) (cfg_resolutions cfg))
             ++ [GetLinks u])%list.

(** The bookkeeping of the log: nothing is done to a URL more often than
    [quota] allows, nothing at all before the URL is in [visited], and
    nothing but the navigation when the navigation failed. *)
Definition tidy (cfg : Config) (s : state) : Prop :=
  forall U a,
    times a U (log s) <= quota cfg a /\
    (U ∉ visited s -> times a U (log s) = 0) /\
    (In (Goto U false) (log s) -> a <> Navigate -> times a U (log s) = 0).

(** The URLs the crawl can come to: the seed, and every link under the
    seed that the extraction returns for a page at a URL the crawl can come
    to. *)
Inductive reachable (w : World) (cfg : Config) : string -> Prop :=
  | reachable_seed : reachable w cfg (cfg_url cfg)
  | reachable_link (u : string) (n : nat) (page : Page) (links : list string) (link : string) :
      reachable w cfg u ->
      page_goto w n u = Some page ->
      getLinksFromPage w page (cfg_domain cfg) = Some links ->
      In link links ->
      JS.startsWith link (cfg_url cfg) = true ->
      reachable w cfg link.

(** Some page at a URL the crawl can come to makes the capture or the link
    extraction throw. *)
Definition somePageThrows (w : World) (cfg : Config) : Prop :=
  exists n u page,
    reachable w cfg u /\
    page_goto w n u = Some page /\
    ((exists done went,
        captureScreenshotsForPage w u (cfg_resolutions cfg) done = CaptureThrew went) \/
     (exists done, fails w done (GetLinks u) = true) \/
     getLinksFromPage w page (cfg_domain cfg) = None).

(** The run is over: the queue is empty, or an exception that a page
    made the capture or the extraction throw ended it. *)
Definition ended (w : World) (cfg : Config) (o : outcome) : Prop :=
  match o with
  | Done s => queue s = []
  | Aborted _ => somePageThrows w cfg
  | OutOfFuel _ => False
  end.

(** [reach] holds every link that a page can hand to the queue. *)
Definition closed (w : World) (cfg : Config) (reach : list string) : Prop :=
  forall n u page links link,
    page_goto w n u = Some page ->
    getLinksFromPage w page (cfg_domain cfg) = Some links ->
    In link links -> JS.startsWith link (cfg_url cfg) = true ->
    In link reach.

(** An [href] the filter of line 78 is meant to refuse: missing, empty,
    or with one of the four words somewhere in it. *)
Definition rejectedHref (a : option string) : Prop :=
  a = None \/ a = Some "" \/
  exists word pre post, In word illegal_words /\ a = Some (pre ++ word ++ post).

(** The link an anchor contributes, if any. *)
Definition contribution (w : World) (location domain : string) (a : option string)
  : option string :=
  match checkAnchor w location domain a with
  | Pushed link => Some link
  | _ => None
  end.

(** A path component that [path.join] leaves alone. *)
Definition ordinary (seg : string) : bool :=
  negb (String.eqb seg "") && negb (String.eqb seg ".") && negb (String.eqb seg "..")
  && negb (JS.has_char "/" seg).

(** The path as the specification words it:
    rootDir/images/hostname/sanitized segments/resolution.png, glued
    with [/] and nothing else done to it. *)
Definition specPath (rootDir url resolution : string) : option string :=
  match segments url with
  | [] => None
  | hostname :: _ =>
      Some (JS.join "/"
              (rootDir :: "images" :: hostname ::
                 app (safeSegments (segments url)) [resolution ++ ".png"]))
  end.

(** The resolution string of a width and a height. *)
Definition decimal (n : nat) : string := NilEmpty.string_of_uint (Nat.to_uint n).

Definition resolutionString (width height : nat) : string :=
  decimal width ++ "x" ++ decimal height.

(** The pages whose screenshots were all taken, in order: those for
    which the run went on to the link extraction. *)
Definition captured (l : list event) : list string :=
  omap (fun e => match e with GetLinks u => Some u | _ => None end) l.

(** The files [captureScreenshotsForPage] writes for a URL. *)
Definition filesOf (w : World) (cfg : Config) (u : string) : list string :=
  match directoryFor w u with
  | Some directory => map (filenameIn directory) (cfg_resolutions cfg)
  | None => []
  end.

(** A log in which every page has its screenshots in full: as many as
    configured resolutions for each link extraction, and the files written
    are those of the pages whose links were extracted. *)
Definition complete (w : World) (cfg : Config) (l : list event) : Prop :=
  (forall U, times Shot U l = times Extract U l * length (cfg_resolutions cfg)) /\
  written l = flat_map (filesOf w cfg) (captured l).

(** Where a link of the queue comes from, in a log [l]: the run loaded a
    page, its [n]-th after [n - 1] navigations, and pushed the link later
    on; the page has an anchor that passes the word filter and whose [href]
    resolves, against the address of the page, to the configured host name;
    the link is that [href], or what it resolves to when it has no [://]
    in it. *)
Definition foundOn (w : World) (cfg : Config) (l : list event) (link : string) : Prop :=
  exists u page h x before after,
    l = (before ++ Goto u true :: after)%list /\
    page_goto w (S (length (navigated before))) u = Some page /\
    In (Push link) after /\
    In (Some h) (anchors page) /\ ~ rejectedHref (Some h) /\
    newURL w h (location_href page) = Some x /\
    url_hostname x = cfg_domain cfg /\
    link = (if JS.includes h "://" then h else url_href x).

(** * Properties *)

(** ** Strings *)
Section StringFacts.

Lemma append_nil (t : string) : "" ++ t = t.
Proof. reflexivity. Qed.

Lemma append_cons (c : ascii) (p t : string) : String c p ++ t = String c (p ++ t).
Proof. reflexivity. Qed.

Lemma prefix_nil (s : string) : String.prefix "" s = true.
Proof. destruct s; reflexivity. Qed.

Lemma prefix_spec (p s : string) :
  String.prefix p s = true <-> exists t, s = p ++ t.
Proof.
  revert s. induction p as [|c p IH]; intros s.
  - rewrite prefix_nil. split; [intros _; exists s; reflexivity | reflexivity].
  - destruct s as [|d s]; simpl.
    + split; [discriminate | intros [t Ht]; discriminate].
    + destruct (Ascii.ascii_dec c d) as [->|Hne].
      * rewrite IH. split; intros [t Ht]; exists t; rewrite ?append_cons in *; congruence.
      * split; [discriminate | intros [t Ht]; rewrite append_cons in Ht; congruence].
Qed.

Lemma startsWith_spec (s p : string) :
  JS.startsWith s p = true <-> exists t, s = p ++ t.
Proof. apply prefix_spec. Qed.

Lemma includes_spec (s word : string) :
  JS.includes s word = true <-> exists pre post, s = pre ++ word ++ post.
Proof.
  induction s as [|c s IH]; cbn [JS.includes].
  - rewrite orb_false_r, prefix_spec. split.
    + intros [t Ht]. exists "", t. exact Ht.
    + intros [pre [post H]]. destruct pre; [exists post; exact H | discriminate].
  - rewrite orb_true_iff, prefix_spec, IH. split.
    + intros [[t Ht] | [pre [post H]]].
      * exists "", t. exact Ht.
      * exists (String c pre), post. rewrite append_cons. congruence.
    + intros [pre [post H]]. destruct pre as [|d pre].
      * left. exists post. exact H.
      * right. exists pre, post. rewrite append_cons in H. congruence.
Qed.

End StringFacts.

Ltac same_state :=
  unfold after, emit, markVisited; cbn; rewrite ?app_nil_r; f_equal;
  repeat (rewrite <- app_assoc; simpl); rewrite ?app_nil_r; reflexivity.

(** ** Paths *)
Section PathFacts.

Lemma append_assoc (a b c : string) : (a ++ b) ++ c = a ++ b ++ c.
Proof. induction a as [|x a IH]; [reflexivity|]. rewrite !append_cons, IH. reflexivity. Qed.

Lemma append_nil_r (t : string) : t ++ "" = t.
Proof. induction t as [|c t IH]; [reflexivity|]. rewrite append_cons, IH. reflexivity. Qed.

Lemma has_char_append c (a b : string) :
  JS.has_char c (a ++ b) = JS.has_char c a || JS.has_char c b.
Proof.
  induction a as [|x a IH]; [reflexivity|].
  rewrite append_cons. cbn [JS.has_char]. rewrite IH, orb_assoc. reflexivity.
Qed.

Lemma split_nosep sep s : JS.has_char sep s = false -> JS.split sep s = [s].
Proof.
  induction s as [|c s IH]; [reflexivity|]. cbn [JS.has_char JS.split].
  intros H. apply orb_false_iff in H. destruct H as [Hc Hs].
  rewrite Hc, (IH Hs). reflexivity.
Qed.

Lemma split_sep sep a b :
  JS.has_char sep a = false ->
  JS.split sep (a ++ String sep b) = a :: JS.split sep b.
Proof.
  induction a as [|c a IH]; intros H.
  - rewrite append_nil. cbn [JS.split]. rewrite Ascii.eqb_refl. reflexivity.
  - cbn [JS.has_char] in H. apply orb_false_iff in H. destruct H as [Hc Ha].
    rewrite append_cons. cbn [JS.split]. rewrite Hc, (IH Ha). reflexivity.
Qed.

Lemma join_cons (sep x y : string) l :
  JS.join sep (x :: y :: l) = x ++ sep ++ JS.join sep (y :: l).
Proof. reflexivity. Qed.

Lemma join_app sep xs ys :
  xs <> [] -> ys <> [] ->
  JS.join sep (xs ++ ys)%list = JS.join sep xs ++ sep ++ JS.join sep ys.
Proof.
  intros Hxs Hys. induction xs as [|x xs IH]; [congruence|].
  destruct xs as [|x' xs].
  - destruct ys as [|y ys]; [congruence|]. reflexivity.
  - change ((x :: x' :: xs) ++ ys)%list with (x :: x' :: (xs ++ ys))%list.
    rewrite !join_cons. change (x' :: (xs ++ ys))%list with ((x' :: xs) ++ ys)%list.
    rewrite IH by discriminate. rewrite !append_assoc. reflexivity.
Qed.

Lemma ordinary_spec seg :
  ordinary seg = true <->
  seg <> "" /\ seg <> "." /\ seg <> ".." /\ JS.has_char "/" seg = false.
Proof.
  unfold ordinary. rewrite !andb_true_iff, !negb_true_iff, !String.eqb_neq. tauto.
Qed.

Lemma split_join comps :
  comps <> [] -> forallb ordinary comps = true ->
  JS.split "/" (JS.join "/" comps) = comps.
Proof.
  intros Hne Hall. induction comps as [|x comps IH]; [congruence|].
  cbn [forallb] in Hall. apply andb_true_iff in Hall. destruct Hall as [Hx Hall].
  apply ordinary_spec in Hx. destruct Hx as (_ & _ & _ & Hx).
  destruct comps as [|y comps].
  - apply split_nosep, Hx.
  - rewrite join_cons. change ("/" ++ JS.join "/" (y :: comps))
      with (String "/" (JS.join "/" (y :: comps))).
    rewrite split_sep by exact Hx. rewrite IH by (discriminate || exact Hall).
    reflexivity.
Qed.

Lemma fold_push above comps acc :
  forallb ordinary comps = true ->
  fold_left (Path.push_component above) comps acc = (rev comps ++ acc)%list.
Proof.
  revert acc. induction comps as [|x comps IH]; intros acc Hall; [reflexivity|].
  cbn [forallb] in Hall. apply andb_true_iff in Hall. destruct Hall as [Hx Hall].
  apply ordinary_spec in Hx. destruct Hx as (H0 & H1 & H2 & _).
  cbn [fold_left rev]. unfold Path.push_component at 2.
  apply String.eqb_neq in H0, H1, H2. rewrite H0, H1, H2. cbn [orb].
  rewrite IH by exact Hall. rewrite <- app_assoc. reflexivity.
Qed.

Lemma join_not_empty x comps : x <> "" -> JS.join "/" (x :: comps) <> "".
Proof.
  intros Hx. destruct comps as [|y comps]; [exact Hx|].
  rewrite join_cons. destruct x; [congruence|]. rewrite append_cons. discriminate.
Qed.

Lemma trailing_nosep s : JS.has_char "/" s = false -> Path.trailingSeparator s = false.
Proof.
  induction s as [|c s IH]; [reflexivity|]. cbn [JS.has_char].
  intros H. apply orb_false_iff in H. destruct H as [Hc Hs].
  cbn [Path.trailingSeparator]. destruct s; [exact Hc | exact (IH Hs)].
Qed.

Lemma trailing_append a b :
  b <> "" -> Path.trailingSeparator (a ++ b) = Path.trailingSeparator b.
Proof.
  intros Hb. induction a as [|c a IH]; [reflexivity|].
  rewrite append_cons. cbn [Path.trailingSeparator].
  destruct (a ++ b) eqn:Hab; [|exact IH].
  destruct a; [rewrite append_nil in Hab; congruence | discriminate].
Qed.

Lemma trailing_join comps :
  comps <> [] -> forallb ordinary comps = true ->
  Path.trailingSeparator (JS.join "/" comps) = false.
Proof.
  intros Hne Hall. induction comps as [|x comps IH]; [congruence|].
  cbn [forallb] in Hall. apply andb_true_iff in Hall. destruct Hall as [Hx Hall].
  apply ordinary_spec in Hx. destruct Hx as (_ & _ & _ & Hx).
  destruct comps as [|y comps]; [apply trailing_nosep, Hx|].
  rewrite join_cons, <- append_assoc, trailing_append; [apply IH; [discriminate|exact Hall]|].
  cbn [forallb] in Hall. apply andb_true_iff in Hall. destruct Hall as [Hy _].
  apply ordinary_spec in Hy. apply join_not_empty. tauto.
Qed.

Lemma normalizeString_clean comps :
  forallb ordinary comps = true ->
  Path.normalizeString ("" :: comps) false = comps.
Proof.
  intros Hall. unfold Path.normalizeString. cbn [fold_left].
  change (Path.push_component false [] "") with (@nil string).
  rewrite fold_push by exact Hall. rewrite app_nil_r. apply rev_involutive.
Qed.

(** [path.normalize] leaves an absolute path of ordinary components alone. *)
Lemma normalize_clean comps :
  comps <> [] -> forallb ordinary comps = true ->
  Path.normalize ("/" ++ JS.join "/" comps) = "/" ++ JS.join "/" comps.
Proof.
  intros Hne Hall.
  assert (JS.split "/" ("/" ++ JS.join "/" comps) = "" :: comps) as Hsplit.
  { change ("/" ++ JS.join "/" comps) with (String "/" (JS.join "/" comps)).
    cbn [JS.split]. rewrite Ascii.eqb_refl, split_join by assumption. reflexivity. }
  assert (JS.join "/" comps <> "") as Hbody.
  { destruct comps as [|x comps]; [congruence|].
    apply join_not_empty. cbn [forallb] in Hall. apply andb_true_iff in Hall.
    destruct Hall as [Hx _]. apply ordinary_spec in Hx. tauto. }
  assert (Path.trailingSeparator ("/" ++ JS.join "/" comps) = false) as Htrail.
  { rewrite trailing_append by exact Hbody. apply trailing_join; assumption. }
  unfold Path.normalize. rewrite Hsplit, Htrail.
  change (Path.isAbsolute ("/" ++ JS.join "/" comps)) with true.
  change ("/" ++ JS.join "/" comps =? "") with false.
  cbn [negb]. rewrite normalizeString_clean by exact Hall.
  apply String.eqb_neq in Hbody. rewrite Hbody. reflexivity.
Qed.

Lemma filter_nonempty (args : list string) :
  Forall (fun arg => arg <> "") args -> filter (fun arg => arg <> "") args = args.
Proof.
  induction 1 as [|arg args Harg _ IH]; [reflexivity|].
  rewrite filter_cons_True by exact Harg. rewrite IH. reflexivity.
Qed.

(** [path.join] of a clean absolute path and ordinary components is the
    plain concatenation with [/]. *)
Lemma join_clean dirs comps :
  dirs <> [] -> comps <> [] -> forallb ordinary (dirs ++ comps) = true ->
  Path.join (("/" ++ JS.join "/" dirs) :: comps) =
    JS.join "/" (("/" ++ JS.join "/" dirs) :: comps) /\
  Path.join (("/" ++ JS.join "/" dirs) :: comps) = "/" ++ JS.join "/" (dirs ++ comps).
Proof.
  intros Hd Hc Hall.
  assert (JS.join "/" (("/" ++ JS.join "/" dirs) :: comps)
          = "/" ++ JS.join "/" (dirs ++ comps)) as Hplain.
  { destruct comps as [|y comps]; [congruence|].
    rewrite join_cons, join_app by (assumption || discriminate).
    rewrite !append_assoc. reflexivity. }
  assert (Path.join (("/" ++ JS.join "/" dirs) :: comps)
          = "/" ++ JS.join "/" (dirs ++ comps)) as Hjoin.
  { unfold Path.join. rewrite filter_nonempty.
    - rewrite Hplain. apply normalize_clean; [|exact Hall].
      destruct dirs; [congruence | discriminate].
    - constructor; [discriminate|].
      rewrite forallb_app in Hall. apply andb_true_iff in Hall. destruct Hall as [_ Hall].
      apply Forall_forall. intros y Hy. rewrite forallb_forall in Hall.
      apply list_elem_of_In in Hy. specialize (Hall y Hy). apply ordinary_spec in Hall. tauto. }
  split; [rewrite Hplain|]; exact Hjoin.
Qed.

Lemma join_rooted dirs comps :
  dirs <> [] -> comps <> [] ->
  JS.join "/" (("/" ++ JS.join "/" dirs) :: comps) = "/" ++ JS.join "/" (dirs ++ comps).
Proof.
  intros Hd Hc. destruct comps as [|y comps]; [congruence|].
  rewrite join_cons, join_app by (assumption || discriminate).
  rewrite !append_assoc. reflexivity.
Qed.

Lemma ordinary_png r : JS.has_char "/" r = false -> ordinary (r ++ ".png") = true.
Proof.
  intros Hr. apply ordinary_spec. repeat split.
  - destruct r; [rewrite append_nil | rewrite append_cons]; discriminate.
  - destruct r as [|c [|c' r]]; rewrite ?append_cons, ?append_nil; discriminate.
  - destruct r as [|c [|c' [|c'' r]]]; rewrite ?append_cons, ?append_nil; discriminate.
  - rewrite has_char_append, Hr. reflexivity.
Qed.

Lemma digits_no_slash (d : Decimal.uint) :
  JS.has_char "/" (NilEmpty.string_of_uint d) = false.
Proof. induction d; cbn; assumption || reflexivity. Qed.

Lemma digits_no_x (d : Decimal.uint) :
  JS.has_char "x" (NilEmpty.string_of_uint d) = false.
Proof. induction d; cbn; assumption || reflexivity. Qed.

Lemma resolutionString_no_slash width height :
  JS.has_char "/" (resolutionString width height) = false.
Proof.
  unfold resolutionString, decimal. rewrite !has_char_append, !digits_no_slash.
  reflexivity.
Qed.

(** The viewport of a resolution string gets its two numbers. *)
Lemma widthHeight_resolutionString width height :
  widthHeight (resolutionString width height)
  = (Number (decimal width), Number (decimal height)).
Proof.
  unfold widthHeight, resolutionString, decimal.
  change ("x" ++ NilEmpty.string_of_uint (Nat.to_uint height))
    with (String "x" (NilEmpty.string_of_uint (Nat.to_uint height))).
  rewrite split_sep by apply digits_no_x.
  rewrite split_nosep by apply digits_no_x. reflexivity.
Qed.

Lemma has_char_strip cls c s :
  JS.has_char c (JS.strip cls s) = JS.has_char c s && negb (cls c).
Proof.
  induction s as [|x s IH]; [reflexivity|]. cbn [JS.strip JS.has_char].
  destruct (cls x) eqn:Hx; cbn [JS.has_char]; rewrite IH;
    destruct (Ascii.eqb_spec x c) as [<-|Hne]; cbn [orb]; rewrite ?Hx;
    cbn [negb]; rewrite ?andb_false_r; reflexivity.
Qed.

Lemma split_not_nil sep s : JS.split sep s <> [].
Proof.
  destruct s as [|c s]; [discriminate|]. cbn [JS.split].
  destruct (Ascii.eqb c sep); [discriminate|]. destruct (JS.split sep s); discriminate.
Qed.

Lemma strip_filter cls s :
  list_ascii_of_string (JS.strip cls s) =
  List.filter (fun c => negb (cls c)) (list_ascii_of_string s).
Proof.
  induction s as [|c s IH]; [reflexivity|]. cbn [JS.strip list_ascii_of_string List.filter].
  destruct (cls c); cbn [negb list_ascii_of_string]; rewrite IH; reflexivity.
Qed.

Lemma join_split sep s : JS.join (String sep "") (JS.split sep s) = s.
Proof.
  induction s as [|c s IH]; [reflexivity|]. cbn [JS.split].
  pose proof (split_not_nil sep s) as Hnil.
  destruct (JS.split sep s) as [|seg segs] eqn:Hs; [congruence|].
  destruct (Ascii.eqb_spec c sep) as [->|Hne].
  - rewrite join_cons, IH. reflexivity.
  - destruct segs as [|seg' segs].
    + cbn in *. congruence.
    + rewrite join_cons in *. rewrite append_cons, IH. reflexivity.
Qed.

Lemma split_pieces sep s : Forall (fun seg => JS.has_char sep seg = false) (JS.split sep s).
Proof.
  induction s as [|c s IH]; [repeat constructor|]. cbn [JS.split].
  destruct (Ascii.eqb c sep) eqn:Hc; [constructor; [reflexivity|exact IH]|].
  destruct (JS.split sep s) as [|seg segs]; [repeat constructor; cbn; rewrite Hc; reflexivity|].
  inversion IH as [|? ? Hseg Hsegs]; subst. constructor; [|exact Hsegs].
  cbn. rewrite Hc. exact Hseg.
Qed.

Lemma unsafe_char_spec c :
  unsafe_char c = true <->
  nat_of_ascii c < 32 \/
  In c ["<"; ">"; ":"; "034"; "/"; "\"; "|"; "?"; "*"]%char.
Proof.
  unfold unsafe_char. rewrite orb_true_iff, Nat.ltb_lt, existsb_exists.
  split; (intros [H|H]; [left; exact H | right]).
  - destruct H as [x [Hin Hx]]. apply Ascii.eqb_eq in Hx. subst x. exact Hin.
  - exists c. split; [exact H | apply Ascii.eqb_refl].
Qed.

(** The path of a screenshot when [__dirname] is a clean absolute path and
    neither the host name nor a sanitized segment is empty, [.] or [..]:
    the plain concatenation. *)
Lemma path_of_ordinary_segments (w : World) (dirs : list string)
    (url hostname : string) (rest : list string) (width height : nat) :
  dirname w = "/" ++ JS.join "/" dirs -> dirs <> [] -> forallb ordinary dirs = true ->
  segments url = hostname :: rest ->
  forallb ordinary (hostname :: map (JS.strip unsafe_char) rest) = true ->
  let resolution := resolutionString width height in
  filenameFor w url resolution =
    Some (JS.join "/"
            (dirname w :: "images" :: hostname ::
               app (map (JS.strip unsafe_char) rest) [resolution ++ ".png"])) /\
  filenameFor w url resolution = specPath (dirname w) url resolution /\
  (forall seg, In seg (segments url) <->
               In seg (JS.split "/" url) /\ seg <> "" /\ seg <> "https:") /\
  JS.join "/" (JS.split "/" url) = url /\
  (forall seg c, In seg (map (JS.strip unsafe_char) rest) ->
                 unsafe_char c = true -> JS.has_char c seg = false) /\
  (forall seg, list_ascii_of_string (JS.strip unsafe_char seg) =
               List.filter (fun c => negb (unsafe_char c)) (list_ascii_of_string seg)) /\
  (forall w', dirname w' = dirname w ->
              filenameFor w' url resolution = filenameFor w url resolution).
Proof.
  intros Hdir Hdirs Hclean Hsegs Hord resolution.
  assert (forallb ordinary (dirs ++ "images" :: hostname :: map (JS.strip unsafe_char) rest)
          = true) as Hall.
  { rewrite forallb_app, Hclean. cbn [forallb andb] in *. exact Hord. }
  assert (filenameFor w url resolution =
          Some (JS.join "/"
                  (dirname w :: "images" :: hostname ::
                     app (map (JS.strip unsafe_char) rest) [resolution ++ ".png"]))) as Hfile.
  { unfold filenameFor, directoryFor. rewrite Hsegs. unfold safeSegments. cbn [tail].
    rewrite Hdir. f_equal. unfold filenameIn.
    destruct (join_clean dirs ("images" :: hostname :: map (JS.strip unsafe_char) rest))
      as [_ ->]; [assumption | discriminate | exact Hall |].
    destruct (join_clean (dirs ++ "images" :: hostname :: map (JS.strip unsafe_char) rest)
                [resolution ++ ".png"]) as [_ ->].
    - destruct dirs; [congruence | discriminate].
    - discriminate.
    - rewrite forallb_app, Hall. cbn [forallb andb].
      rewrite ordinary_png by apply resolutionString_no_slash. reflexivity.
    - rewrite join_rooted by (assumption || discriminate).
      rewrite <- app_assoc. reflexivity. }
  split; [exact Hfile|]. split.
  - rewrite Hfile. unfold specPath. rewrite Hsegs. reflexivity.
  - split; [|split].
    + intros seg. unfold segments. rewrite filter_In, andb_true_iff, !negb_true_iff,
        !String.eqb_neq. reflexivity.
    + apply join_split.
    + split; [|split].
      * intros seg c Hin Hc. apply in_map_iff in Hin. destruct Hin as [raw [<- _]].
        rewrite has_char_strip, Hc. apply andb_false_r.
      * apply strip_filter.
      * intros w' Hw'. unfold filenameFor, directoryFor. rewrite Hw'. reflexivity.
Qed.

End PathFacts.

(** ** Link extraction *)
Section Links.

Context (w : World).

Lemma illegal_spec a : illegal a = true <-> rejectedHref a.
Proof.
  unfold rejectedHref. destruct a as [h|]; cbn [illegal].
  - rewrite orb_true_iff, String.eqb_eq, existsb_exists. split.
    + intros [-> | [word [Hin Hinc]]]; [right; left; reflexivity|].
      right. right. apply includes_spec in Hinc. destruct Hinc as (pre & post & ->).
      exists word, pre, post. split; [exact Hin | reflexivity].
    + intros [H | [H | (word & pre & post & Hin & H)]]; [discriminate | | ].
      * left. congruence.
      * right. exists word. split; [exact Hin|]. apply includes_spec.
        exists pre, post. congruence.
  - split; [intros _; left; reflexivity | reflexivity].
Qed.

Lemma checkAnchor_rejected location domain a :
  rejectedHref a -> checkAnchor w location domain a = Skipped.
Proof. intros H. apply illegal_spec in H. unfold checkAnchor. rewrite H. reflexivity. Qed.

(** What stands behind a pushed link. *)
Lemma checkAnchor_pushed location domain a link :
  checkAnchor w location domain a = Pushed link ->
  exists h u,
    a = Some h /\ ~ rejectedHref (Some h) /\
    newURL w h location = Some u /\ url_hostname u = domain /\
    link = if JS.includes h "://" then h else url_href u.
Proof.
  unfold checkAnchor. destruct (illegal a) eqn:Hill; [discriminate|].
  destruct a as [h|]; [|discriminate].
  destruct (newURL w h location) as [u|] eqn:Hu; [|discriminate].
  destruct (String.eqb_spec (url_hostname u) domain) as [Hd|Hd]; [|discriminate].
  cbn [negb]. intros H. exists h, u.
  split; [reflexivity|]. split; [rewrite <- illegal_spec, Hill; discriminate|].
  split; [exact Hu|]. split; [exact Hd|].
  destruct (JS.includes h "://"); cbn in H; congruence.
Qed.

Lemma checkAnchor_foreign location domain h u :
  newURL w h location = Some u -> url_hostname u <> domain ->
  checkAnchor w location domain (Some h) = Skipped.
Proof.
  intros Hu Hd. unfold checkAnchor. destruct (illegal (Some h)); [reflexivity|].
  rewrite Hu. apply String.eqb_neq in Hd. rewrite Hd. reflexivity.
Qed.

(** The loop over the anchors returns, after [links], what each anchor
    contributes, in document order; it throws when some anchor does. *)
Lemma scanAnchors_spec location domain elements links out :
  scanAnchors w location domain elements links = Some out <->
  Forall (fun a => checkAnchor w location domain a <> Thrown) elements /\
  out = (links ++ omap (contribution w location domain) elements)%list.
Proof.
  revert links. induction elements as [|a elements IH]; intros links; cbn [scanAnchors].
  - cbn. rewrite app_nil_r. split.
    + intros [= ->]. split; [constructor | reflexivity].
    + intros [_ ->]. reflexivity.
  - change (omap (contribution w location domain) (a :: elements))
      with (match contribution w location domain a with
            | Some link => link :: omap (contribution w location domain) elements
            | None => omap (contribution w location domain) elements
            end).
    unfold contribution at 1.
    destruct (checkAnchor w location domain a) as [|link|] eqn:Ha.
    + rewrite IH, Forall_cons_iff, Ha. intuition congruence.
    + rewrite IH, Forall_cons_iff, Ha, <- app_assoc. cbn. intuition congruence.
    + rewrite Forall_cons_iff, Ha. split; [discriminate | intros [[H _] _]; destruct H; reflexivity].
Qed.

Lemma getLinksFromPage_origin page domain links link :
  getLinksFromPage w page domain = Some links -> In link links ->
  exists a, In a (anchors page) /\
            checkAnchor w (location_href page) domain a = Pushed link.
Proof.
  unfold getLinksFromPage. intros Hscan Hin. apply scanAnchors_spec in Hscan.
  destruct Hscan as [_ ->]. cbn in Hin.
  apply list_elem_of_In, list_elem_of_omap in Hin. destruct Hin as (a & Ha & Hc).
  exists a. split; [apply list_elem_of_In, Ha|].
  unfold contribution in Hc. destruct (checkAnchor w (location_href page) domain a);
    congruence.
Qed.

(** Taking a refused anchor out of the page changes nothing. *)
Lemma scanAnchors_without location domain a before rest links :
  rejectedHref a ->
  scanAnchors w location domain (before ++ a :: rest) links =
  scanAnchors w location domain (before ++ rest) links.
Proof.
  intros Ha. revert links. induction before as [|b before IH]; intros links; cbn.
  - rewrite (checkAnchor_rejected location domain a Ha). reflexivity.
  - destruct (checkAnchor w location domain b); [apply IH | apply IH | reflexivity].
Qed.

(** C4. An anchor whose [href] is missing, empty, or contains [mailto:],
    [tel:], [javascript:] or [#] anywhere is skipped, and the extraction
    returns what it returns for the page without that anchor; every link
    returned comes from an anchor whose [href] is none of these, and is
    that [href] or what it resolves to. *)
Theorem illegal_hrefs_rejected :
  (forall location domain a,
     rejectedHref a -> checkAnchor w location domain a = Skipped) /\
  (forall location domain a before rest links,
     rejectedHref a ->
     scanAnchors w location domain (before ++ a :: rest) links =
     scanAnchors w location domain (before ++ rest) links) /\
  (forall page domain links link,
     getLinksFromPage w page domain = Some links -> In link links ->
     exists h, In (Some h) (anchors page) /\ ~ rejectedHref (Some h) /\
               checkAnchor w (location_href page) domain (Some h) = Pushed link /\
               (link = h \/
                exists u, newURL w h (location_href page) = Some u /\
                          link = url_href u)).
Proof.
  split; [exact checkAnchor_rejected|]. split.
  - intros location domain a before rest links Ha. apply scanAnchors_without, Ha.
  - intros page domain links link Hl Hin.
    destruct (getLinksFromPage_origin page domain links link Hl Hin) as (a & Ha & Hc).
    destruct (checkAnchor_pushed _ _ _ _ Hc) as (h & u & -> & Hok & Hu & _ & Hlink).
    exists h. split; [exact Ha|]. split; [exact Hok|]. split; [exact Hc|].
    destruct (JS.includes h "://"); [left; exact Hlink | right; exists u; split; assumption].
Qed.

(** C5. Every link returned comes from an anchor whose [href], resolved
    against the URL of the page, has exactly the configured domain as its
    host name; an anchor whose resolved host name is any other string is
    skipped. *)
Theorem admitted_links_in_domain :
  (forall page domain links link,
     getLinksFromPage w page domain = Some links -> In link links ->
     exists h u, In (Some h) (anchors page) /\
                 newURL w h (location_href page) = Some u /\
                 url_hostname u = domain /\
                 checkAnchor w (location_href page) domain (Some h) = Pushed link) /\
  (forall location domain h u,
     newURL w h location = Some u -> url_hostname u <> domain ->
     checkAnchor w location domain (Some h) = Skipped).
Proof.
  split; [|exact checkAnchor_foreign].
  intros page domain links link Hl Hin.
  destruct (getLinksFromPage_origin page domain links link Hl Hin) as (a & Ha & Hc).
  destruct (checkAnchor_pushed _ _ _ _ Hc) as (h & u & -> & _ & Hu & Hd & _).
  exists h, u. repeat split; assumption.
Qed.

(** C9, as the script has it.  Every link returned comes from an admitted
    anchor: it is the [href] resolved against the URL of the page when the
    [href] has no [://] in it, and the [href] itself, as written, when it
    has. *)
Theorem links_resolved_unless_schemed :
  forall page domain links link,
    getLinksFromPage w page domain = Some links -> In link links ->
    exists h u, In (Some h) (anchors page) /\
                newURL w h (location_href page) = Some u /\
                url_hostname u = domain /\
                ((JS.includes h "://" = false /\ link = url_href u) \/
                 (JS.includes h "://" = true /\ link = h)).
Proof.
  intros page domain links link Hl Hin.
  destruct (getLinksFromPage_origin page domain links link Hl Hin) as (a & Ha & Hc).
  destruct (checkAnchor_pushed _ _ _ _ Hc) as (h & u & -> & _ & Hu & Hd & Hlink).
  exists h, u. do 3 (split; [assumption|]).
  destruct (JS.includes h "://"); [right | left]; split; (reflexivity || exact Hlink).
Qed.

End Links.

(** ** The loop *)
Section Crawl.

Context (w : World) (cfg : Config).

Lemma has_true vis x : has vis x = true <-> x ∈ vis.
Proof. unfold has. apply bool_decide_eq_true. Qed.

Lemma has_false vis x : has vis x = false <-> x ∉ vis.
Proof. unfold has. apply bool_decide_eq_false. Qed.

Lemma fold_checkLink links s :
  fold_left (checkLink cfg) links s =
  {| queue := (queue s ++ admitted cfg (visited s) links)%list;
     visited := visited s;
     visitedCount := visitedCount s;
     log := (log s ++ map Push (admitted cfg (visited s) links))%list |}.
Proof.
  revert s. induction links as [|link links IH]; intros s; simpl.
  - rewrite !app_nil_r. destruct s; reflexivity.
  - rewrite IH. unfold checkLink.
    destruct (negb (has (visited s) link) && JS.startsWith link (cfg_url cfg)); simpl.
    + rewrite <- !app_assoc. reflexivity.
    + reflexivity.
Qed.

Lemma admitted_spec vis links link :
  In link (admitted cfg vis links) <->
  In link links /\ (link ∉ vis) /\ exists t, link = cfg_url cfg ++ t.
Proof.
  unfold admitted. rewrite filter_In, andb_true_iff, negb_true_iff.
  rewrite has_false, startsWith_spec. reflexivity.
Qed.

Lemma times_app a U l1 l2 :
  times a U (l1 ++ l2)%list = times a U l1 + times a U l2.
Proof. unfold times. rewrite List.filter_app, length_app. reflexivity. Qed.

Lemma times_pushes a U links : times a U (map Push links) = 0.
Proof.
  induction links as [|link links IH]; [reflexivity|].
  unfold times in *. simpl. destruct a; exact IH.
Qed.

Lemma times_shots a U u directory rs :
  times a U (concat (map (captureOne u directory) rs)) =
  match a with
  | Shot => if String.eqb u U then length rs else 0
  | _ => 0
  end.
Proof.
  induction rs as [|r rs IH]; cbn [concat map].
  - destruct a; [| |destruct (String.eqb u U)|]; reflexivity.
  - rewrite times_app, IH. unfold captureOne. destruct (widthHeight r) as [wd ht].
    unfold times. destruct a; simpl; try reflexivity.
    destruct (String.eqb u U); reflexivity.
Qed.

Lemma times_in_goto U b l : In (Goto U b) l -> 1 <= times Navigate U l.
Proof.
  induction l as [|e l IH]; intros Hin; [destruct Hin|].
  change (e :: l) with ([e] ++ l)%list. rewrite times_app.
  destruct Hin as [->|Hin].
  - unfold times at 1. simpl. rewrite String.eqb_refl. simpl. lia.
  - specialize (IH Hin). lia.
Qed.

(** *** The calls of the capture *)

(** What went through is the beginning of the calls; all of them when
    nothing threw, and otherwise the next one is the call that threw. *)
Lemma perform_spec done calls went threw :
  perform w done calls = (went, threw) ->
  exists rest,
    calls = (went ++ rest)%list /\
    (threw = false -> rest = []) /\
    (threw = true -> exists op rest', rest = op :: rest' /\
                                      fails w (done ++ went) op = true).
Proof.
  revert done went threw. induction calls as [|op calls IH]; intros done went threw; cbn [perform].
  - intros [= <- <-]. exists []. repeat split; [discriminate].
  - destruct (fails w done op) eqn:Hop.
    + intros [= <- <-]. exists (op :: calls). split; [reflexivity|].
      split; [discriminate|]. intros _. exists op, calls.
      rewrite app_nil_r. split; [reflexivity | exact Hop].
    + destruct (perform w (done ++ [op]) calls) as [went' threw'] eqn:Hrec.
      intros [= <- <-]. destruct (IH _ _ _ Hrec) as (rest & -> & Hok & Hbad).
      exists rest. split; [reflexivity|]. split; [exact Hok|].
      intros Ht. destruct (Hbad Ht) as (op' & rest' & -> & Hf).
      exists op', rest'. split; [reflexivity|].
      rewrite <- app_assoc in Hf. exact Hf.
Qed.

Lemma capture_returned url resolutions done went :
  captureScreenshotsForPage w url resolutions done = Captured went ->
  exists directory,
    directoryFor w url = Some directory /\
    went = captureCalls url directory resolutions.
Proof.
  unfold captureScreenshotsForPage.
  destruct (directoryFor w url) as [directory|]; [|discriminate].
  destruct (perform w done (captureCalls url directory resolutions)) as [went' [|]] eqn:Hp;
    [discriminate|].
  intros [= <-]. exists directory. split; [reflexivity|].
  destruct (perform_spec _ _ _ _ Hp) as (rest & Hcalls & Hok & _).
  rewrite (Hok eq_refl), app_nil_r in Hcalls. symmetry. exact Hcalls.
Qed.

Lemma capture_threw url resolutions done went :
  captureScreenshotsForPage w url resolutions done = CaptureThrew went ->
  (directoryFor w url = None /\ went = []) \/
  exists directory op rest,
    directoryFor w url = Some directory /\
    captureCalls url directory resolutions = (went ++ op :: rest)%list /\
    fails w (done ++ went) op = true.
Proof.
  unfold captureScreenshotsForPage.
  destruct (directoryFor w url) as [directory|].
  - destruct (perform w done (captureCalls url directory resolutions)) as [went' [|]] eqn:Hp;
      [|discriminate].
    intros [= <-]. right.
    destruct (perform_spec _ _ _ _ Hp) as (rest & Hcalls & _ & Hbad).
    destruct (Hbad eq_refl) as (op & rest' & -> & Hf).
    exists directory, op, rest'. repeat split; assumption.
  - intros [= <-]. left. split; reflexivity.
Qed.

Lemma calls_are_calls url directory resolutions :
  Forall (fun e => isCall e = true) (captureCalls url directory resolutions).
Proof.
  unfold captureCalls. constructor; [reflexivity|].
  induction resolutions as [|r rs IH]; [constructor|]. cbn [map concat].
  apply Forall_app. split; [|exact IH].
  unfold captureOne. destruct (widthHeight r). repeat constructor.
Qed.

Lemma plan_calls u : Forall (fun e => isCall e = true) (plan w cfg u).
Proof. unfold plan. destruct (directoryFor w u); [apply calls_are_calls | constructor]. Qed.

Lemma times_calls a U l :
  Forall (fun e => isCall e = true) l ->
  times a U l = match a with Shot => times Shot U l | _ => 0 end.
Proof.
  intros Hall. destruct a; [| |reflexivity|];
    (induction Hall as [|e l He _ IH]; [reflexivity|];
     change (e :: l) with ([e] ++ l)%list; rewrite times_app, IH;
     destruct e; try discriminate He; reflexivity).
Qed.

Lemma times_plan U u :
  times Shot U (plan w cfg u) <= if String.eqb u U then length (cfg_resolutions cfg) else 0.
Proof.
  unfold plan. destruct (directoryFor w u) as [directory|]; [|cbn; lia].
  unfold captureCalls. change (EnsureDir directory :: ?l) with ([EnsureDir directory] ++ l)%list.
  rewrite times_app, times_shots. cbn. lia.
Qed.

Lemma omap_calls {A} (f : event -> option A) l :
  (forall e, isCall e = true -> f e = None) ->
  Forall (fun e => isCall e = true) l -> omap f l = [].
Proof.
  intros Hf. induction 1 as [|e l He _ IH]; [reflexivity|].
  change (e :: l) with ([e] ++ l)%list. rewrite omap_app, IH. cbn.
  rewrite (Hf e He). reflexivity.
Qed.

Lemma visit_times u evs U a :
  visitEvents w cfg u evs ->
  times a U evs <= (if String.eqb u U then quota cfg a else 0).
Proof.
  intros [-> | [(went & rest & Hplan & ->) | [directory [_ ->]]]].
  - unfold times. destruct a; simpl; destruct (String.eqb u U); simpl; lia.
  - pose proof (plan_calls u) as Hcalls. rewrite Hplan in Hcalls.
    apply Forall_app in Hcalls. destruct Hcalls as [Hwent _].
    pose proof (times_plan U u) as Hle. rewrite Hplan, times_app in Hle.
    rewrite times_app, (times_calls a U went Hwent). unfold times at 1.
    destruct a; simpl; destruct (String.eqb u U); simpl; lia.
  - rewrite !times_app, times_shots. unfold times.
    destruct a; simpl; destruct (String.eqb u U); simpl; lia.
Qed.

Lemma visit_failed u evs U a :
  visitEvents w cfg u evs -> In (Goto U false) evs -> a <> Navigate ->
  times a U evs = 0.
Proof.
  intros [-> | [(went & rest & Hplan & ->) | [directory [_ ->]]]] Hin Ha.
  - destruct a; [congruence | reflexivity ..].
  - exfalso. pose proof (plan_calls u) as Hcalls. rewrite Hplan in Hcalls.
    apply Forall_app in Hcalls. destruct Hcalls as [Hwent _].
    apply in_app_or in Hin. destruct Hin as [[H|[H|[]]]|Hin]; [discriminate ..|].
    rewrite Forall_forall in Hwent. apply list_elem_of_In, Hwent in Hin. discriminate.
  - exfalso. apply in_app_or in Hin. destruct Hin as [Hin|Hin].
    + simpl in Hin. destruct Hin as [H|[H|[H|[]]]]; discriminate.
    + apply in_app_or in Hin. destruct Hin as [Hin|Hin].
      * apply in_concat in Hin. destruct Hin as [l [Hl Hin]].
        apply in_map_iff in Hl. destruct Hl as [r [<- _]].
        unfold captureOne in Hin. destruct (widthHeight r).
        simpl in Hin. destruct Hin as [H|[H|[]]]; discriminate.
      * simpl in Hin. destruct Hin as [H|[]]; discriminate.
Qed.

(** A turn of the loop on a URL already visited: nothing but the log line. *)
Lemma loopBody_seen u s :
  u ∈ visited s -> loopBody w cfg u s = Normal (emit [SkipVisited u] s).
Proof. intros Hu. unfold loopBody. apply has_true in Hu. rewrite Hu. reflexivity. Qed.

(** A turn of the loop on a URL not yet visited. *)
Lemma loopBody_fresh u s :
  u ∉ visited s ->
  exists evs links,
    visitEvents w cfg u evs /\
    after (loopBody w cfg u s) =
    {| queue := (queue s ++ admitted cfg ({[u]} ∪ visited s) links)%list;
       visited := {[u]} ∪ visited s;
       visitedCount := S (visitedCount s);
       log := (log s ++ evs ++ map Push (admitted cfg ({[u]} ∪ visited s) links))%list |}.
Proof.
  intros Hu. unfold loopBody. apply has_false in Hu. rewrite Hu.
  cbn [markVisited visitedCount].
  destruct (page_goto w (S (visitedCount s)) u) as [page|].
  - destruct (captureScreenshotsForPage w u (cfg_resolutions cfg) _) as [went|went] eqn:Hcap.
    + apply capture_returned in Hcap. destruct Hcap as (directory & Hdir & ->).
      destruct (fails w _ (GetLinks u)).
      { eexists _, []. split.
        { right. right. exists directory. split; [exact Hdir|reflexivity]. }
        unfold captureCalls. same_state. }
      destruct (getLinksFromPage w page (cfg_domain cfg)) as [links|].
      * eexists _, links. split.
        { right. right. exists directory. split; [exact Hdir|reflexivity]. }
        rewrite fold_checkLink. unfold captureCalls. same_state.
      * eexists _, []. split.
        { right. right. exists directory. split; [exact Hdir|reflexivity]. }
        unfold captureCalls. same_state.
    + exists ([Goto u true; CapturePage u] ++ went)%list, []. split.
      * right. left. apply capture_threw in Hcap.
        destruct Hcap as [[Hdir ->] | (directory & op & rest & Hdir & Hcalls & _)].
        -- exists [], []. unfold plan. rewrite Hdir. split; reflexivity.
        -- exists went, (op :: rest). unfold plan. rewrite Hdir. split; [exact Hcalls|reflexivity].
      * same_state.
  - exists [Goto u false], []. split; [left; reflexivity|]. same_state.
Qed.

(** Whatever holds of the first state and is kept by every turn holds of
    every state the loop reaches. *)
Lemma whileQueue_invariant (P : state -> Prop) :
  (forall u rest s, queue s = u :: rest -> P s ->
     P (after (loopBody w cfg u (shift u rest s)))) ->
  forall fuel s, P s -> P (final (whileQueue w cfg fuel s)).
Proof.
  intros Hstep. induction fuel as [|fuel IH]; intros s Hs; simpl.
  - destruct (queue s); exact Hs.
  - destruct (queue s) as [|u rest] eqn:Hq; [exact Hs|].
    specialize (Hstep u rest s Hq Hs).
    destruct (loopBody w cfg u (shift u rest s)); simpl in *.
    + apply IH. exact Hstep.
    + exact Hstep.
Qed.

Lemma times_shift a U u : times a U [Shift u] = 0.
Proof. destruct a; reflexivity. Qed.

Lemma times_skip a U u : times a U [SkipVisited u] = 0.
Proof. destruct a; reflexivity. Qed.

Lemma tidy_initial : tidy cfg (initial cfg).
Proof.
  intros U a. split; [|split].
  - cbn. lia.
  - reflexivity.
  - intros [].
Qed.

Lemma in_goto_pushes U b links : ~ In (Goto U b) (map Push links).
Proof. intros Hin. apply in_map_iff in Hin. destruct Hin as [x [Hx _]]. discriminate. Qed.

Lemma in_goto_visit u evs U b :
  visitEvents w cfg u evs -> In (Goto U b) evs -> U = u.
Proof.
  intros Hev Hin. destruct (String.eqb_spec u U) as [->|Hne]; [reflexivity|].
  apply times_in_goto in Hin. pose proof (visit_times u evs U Navigate Hev) as Hle.
  apply String.eqb_neq in Hne. rewrite Hne in Hle. lia.
Qed.

Lemma tidy_step u rest s :
  queue s = u :: rest -> tidy cfg s ->
  tidy cfg (after (loopBody w cfg u (shift u rest s))).
Proof.
  intros _ Hs. destruct (decide (u ∈ visited s)) as [Hu|Hu].
  - rewrite loopBody_seen by exact Hu. intros U a.
    destruct (Hs U a) as (Hq & Hz & Hf).
    cbn [after emit shift log visited].
    rewrite !times_app, times_shift, times_skip, !Nat.add_0_r.
    repeat split; [exact Hq | exact Hz |].
    intros Hin. apply Hf.
    apply in_app_or in Hin. destruct Hin as [Hin|[H|[]]]; [|discriminate].
    apply in_app_or in Hin. destruct Hin as [Hin|[H|[]]]; [exact Hin|discriminate].
  - destruct (loopBody_fresh u (shift u rest s) Hu) as (evs & links & Hev & ->).
    intros U a. destruct (Hs U a) as (Hq & Hz & Hf).
    cbn [after emit shift log visited].
    rewrite !times_app, times_shift, times_pushes, !Nat.add_0_r.
    pose proof (visit_times u evs U a Hev) as Hle.
    destruct (String.eqb_spec u U) as [<-|Hne].
    + rewrite (Hz Hu). repeat split; [exact Hle | set_solver |].
      intros Hin Ha. simpl. apply (visit_failed u evs u a Hev); [|exact Ha].
      apply in_app_or in Hin. destruct Hin as [Hin|Hin].
      * apply in_app_or in Hin. destruct Hin as [Hin|[H|[]]]; [|discriminate].
        apply times_in_goto in Hin. specialize (Hz Hu).
        destruct (Hs u Navigate) as (_ & Hz' & _). specialize (Hz' Hu). lia.
      * apply in_app_or in Hin. destruct Hin as [Hin|Hin]; [exact Hin|].
        destruct (in_goto_pushes _ _ _ Hin).
    + assert (times a U evs = 0) as -> by lia. rewrite Nat.add_0_r.
      repeat split; [exact Hq | intros HU; apply Hz; set_solver |].
      intros Hin. apply Hf.
      apply in_app_or in Hin. destruct Hin as [Hin|Hin].
      * apply in_app_or in Hin. destruct Hin as [Hin|[H|[]]]; [exact Hin|discriminate].
      * apply in_app_or in Hin. destruct Hin as [Hin|Hin].
        -- destruct Hne. symmetry. exact (in_goto_visit u evs U false Hev Hin).
        -- destruct (in_goto_pushes _ _ _ Hin).
Qed.

Lemma tidy_run fuel : tidy cfg (final (captureScreenshotsForAllPages w cfg fuel)).
Proof.
  unfold captureScreenshotsForAllPages.
  apply (whileQueue_invariant (tidy cfg)); [exact tidy_step | exact tidy_initial].
Qed.

(** The loop on a queue whose head was visited before: the head is dropped
    and the next turn starts, with nothing done but two log lines. *)
Lemma whileQueue_seen fuel u rest s :
  queue s = u :: rest -> u ∈ visited s ->
  whileQueue w cfg (S fuel) s =
  whileQueue w cfg fuel
    {| queue := rest; visited := visited s; visitedCount := visitedCount s;
       log := (log s ++ [Shift u; SkipVisited u])%list |}.
Proof.
  intros Hq Hu. cbn [whileQueue]. rewrite Hq, loopBody_seen by exact Hu.
  f_equal. same_state.
Qed.

(** *** The queue *)

Lemma omap_shots {A} (f : event -> option A) u directory rs :
  (forall r wd ht, f (Screenshot u r wd ht) = None) ->
  (forall file, f (WriteFile file) = None) ->
  omap f (concat (map (captureOne u directory) rs)) = [].
Proof.
  intros Hs Hw. induction rs as [|r rs IH]; [reflexivity|].
  cbn [map concat]. rewrite omap_app, IH. unfold captureOne.
  destruct (widthHeight r). cbn. rewrite Hs, Hw. reflexivity.
Qed.

Lemma visit_quiet u evs :
  visitEvents w cfg u evs ->
  pushed evs = [] /\ shifted evs = [] /\ navigated evs = [u].
Proof.
  intros [-> | [(went & rest & Hplan & ->) | [directory [_ ->]]]]; [repeat split | |].
  - pose proof (plan_calls u) as Hcalls. rewrite Hplan in Hcalls.
    apply Forall_app in Hcalls. destruct Hcalls as [Hwent _].
    unfold pushed, shifted, navigated. rewrite !omap_app.
    rewrite !(omap_calls _ went) by
      (exact Hwent || (intros e He; destruct e; try discriminate He; reflexivity)).
    repeat split.
  - unfold pushed, shifted, navigated. rewrite !omap_app.
    rewrite !omap_shots by reflexivity. repeat split.
Qed.

Lemma pushed_pushes links : pushed (map Push links) = links.
Proof. induction links as [|l links IH]; [reflexivity|]. cbn. f_equal. exact IH. Qed.

Lemma shifted_pushes links : shifted (map Push links) = [].
Proof. induction links as [|l links IH]; [reflexivity|]. exact IH. Qed.

Lemma navigated_pushes links : navigated (map Push links) = [].
Proof. induction links as [|l links IH]; [reflexivity|]. exact IH. Qed.

Lemma in_push_pushed link l : In (Push link) l <-> In link (pushed l).
Proof.
  unfold pushed. rewrite <- !list_elem_of_In, list_elem_of_omap. split.
  - intros H. exists (Push link). split; [exact H|reflexivity].
  - intros [e [He Hf]]. destruct e; try discriminate. congruence.
Qed.

(** What a turn of the loop does to the queue and to the pushes of the log:
    the same links are appended to both, all of them new and under the seed. *)
Lemma loopBody_appends u s :
  exists added,
    queue (after (loopBody w cfg u s)) = (queue s ++ added)%list /\
    pushed (log (after (loopBody w cfg u s))) = (pushed (log s) ++ added)%list /\
    shifted (log (after (loopBody w cfg u s))) = shifted (log s) /\
    forall link, In link added ->
      (link ∉ visited (after (loopBody w cfg u s))) /\
      JS.startsWith link (cfg_url cfg) = true.
Proof.
  destruct (decide (u ∈ visited s)) as [Hu|Hu].
  - rewrite loopBody_seen by exact Hu. exists []. cbn [after emit queue log visited].
    unfold pushed, shifted. rewrite !omap_app, !app_nil_r. cbn. rewrite ?app_nil_r.
    do 3 (split; [reflexivity|]). intros link [].
  - destruct (loopBody_fresh u s Hu) as (evs & links & Hev & ->).
    destruct (visit_quiet u evs Hev) as (Hp & Hs & _).
    exists (admitted cfg ({[u]} ∪ visited s) links). cbn.
    split; [reflexivity|]. split; [|split].
    + unfold pushed in *. rewrite !omap_app, Hp. apply f_equal, pushed_pushes.
    + unfold shifted in *. rewrite !omap_app, Hs.
      fold (shifted (map Push (admitted cfg ({[u]} ∪ visited s) links))).
      rewrite shifted_pushes, !app_nil_r. reflexivity.
    + intros link Hin. apply admitted_spec in Hin. destruct Hin as (_ & Hnv & Hpre).
      split; [exact Hnv|]. apply startsWith_spec. exact Hpre.
Qed.

Lemma underSeed_run fuel : underSeed cfg (final (captureScreenshotsForAllPages w cfg fuel)).
Proof.
  unfold captureScreenshotsForAllPages.
  apply (whileQueue_invariant (underSeed cfg)).
  - intros u rest s Hq Hs link Hin.
    destruct (loopBody_appends u (shift u rest s)) as (added & Hqu & Hpu & _ & Hadd).
    rewrite Hqu, in_push_pushed, Hpu in Hin. cbn [shift queue log] in Hin.
    unfold pushed in Hin. rewrite omap_app in Hin. cbn in Hin. rewrite app_nil_r in Hin.
    fold (pushed (log s)) in Hin. rewrite !in_app_iff in Hin.
    destruct Hin as [[Hin|Hin]|[Hin|Hin]].
    + apply Hs. left. rewrite Hq. right. exact Hin.
    + apply startsWith_spec, Hadd, Hin.
    + apply Hs. right. apply in_push_pushed. exact Hin.
    + apply startsWith_spec, Hadd, Hin.
  - intros link [[<-|[]]|[]]. exists "". symmetry. apply append_nil_r.
Qed.

Lemma fifo_run fuel : fifo cfg (final (captureScreenshotsForAllPages w cfg fuel)).
Proof.
  unfold captureScreenshotsForAllPages.
  apply (whileQueue_invariant (fifo cfg)); [|reflexivity].
  intros u rest s Hq Hs. unfold fifo in *.
  destruct (loopBody_appends u (shift u rest s)) as (added & -> & -> & -> & _).
  cbn [shift queue log]. unfold pushed, shifted in *. rewrite !omap_app. cbn.
  rewrite app_nil_r, app_comm_cons, <- Hs, Hq, <- !app_assoc. reflexivity.
Qed.

Lemma firstOccurrences_snoc (l : list string) (u : string) :
  firstOccurrences (l ++ [u]) =
  if decide (u ∈ l) then firstOccurrences l else (firstOccurrences l ++ [u])%list.
Proof.
  unfold firstOccurrences. rewrite rev_app_distr. cbn [rev app remove_dups].
  unfold decide_rel.
  destruct (list_elem_of_dec u (rev l)) as [Hin|Hin];
    destruct (decide (u ∈ l)) as [Hin'|Hin']; try reflexivity.
  - destruct Hin'. apply list_elem_of_In, in_rev, list_elem_of_In, Hin.
  - destruct Hin. apply list_elem_of_In. rewrite <- in_rev. apply list_elem_of_In, Hin'.
Qed.

Lemma breadthFirst_run fuel :
  breadthFirst (final (captureScreenshotsForAllPages w cfg fuel)).
Proof.
  unfold captureScreenshotsForAllPages.
  apply (whileQueue_invariant breadthFirst).
  - intros u rest s _ [Hnav Hvis].
    destruct (decide (u ∈ visited s)) as [Hu|Hu].
    + rewrite loopBody_seen by exact Hu. unfold breadthFirst.
      cbn [after emit shift log visited]. unfold navigated, shifted in *.
      rewrite !omap_app. cbn. rewrite !app_nil_r.
      fold (firstOccurrences (shifted (log s) ++ [u])).
      rewrite firstOccurrences_snoc, decide_True
        by (apply list_elem_of_In, Hvis, Hu).
      split; [exact Hnav|]. intros v. rewrite in_app_iff, <- Hvis. cbn.
      split; [tauto | intros [H|[<-|[]]]; assumption].
    + destruct (loopBody_fresh u (shift u rest s) Hu) as (evs & links & Hev & ->).
      destruct (visit_quiet u evs Hev) as (_ & Hsh & Hna).
      unfold breadthFirst. cbn [shift log visited].
      unfold navigated, shifted in *. rewrite !omap_app, Hsh, Hna.
      fold (navigated (map Push (admitted cfg ({[u]} ∪ visited s) links))).
      fold (shifted (map Push (admitted cfg ({[u]} ∪ visited s) links))).
      rewrite navigated_pushes, shifted_pushes. cbn. rewrite !app_nil_r.
      fold (firstOccurrences (shifted (log s) ++ [u])).
      rewrite firstOccurrences_snoc, decide_False
        by (intros Hin; apply Hu, Hvis, list_elem_of_In, Hin).
      split; [unfold shifted; rewrite Hnav; reflexivity|].
      intros v. rewrite in_app_iff, <- Hvis, elem_of_union, elem_of_singleton. cbn.
      split; [intros [->|H]; [right; left; reflexivity | left; exact H]|].
      intros [H|[->|[]]]; [right; exact H | left; reflexivity].
  - split; [reflexivity|]. intros u. cbn. set_solver.
Qed.

Lemma calls_in_order url directory resolutions :
  shotResolutions (captureCalls url directory resolutions) = resolutions /\
  written (captureCalls url directory resolutions) = map (filenameIn directory) resolutions.
Proof.
  unfold captureCalls, shotResolutions, written. cbn.
  induction resolutions as [|r rs [IH1 IH2]]; [split; reflexivity|].
  cbn [map concat]. rewrite !omap_app, IH1, IH2. unfold captureOne.
  destruct (widthHeight r). split; reflexivity.
Qed.

(** A turn of the loop on a new page that loads, is captured and has its
    links extracted: the head of the queue is gone, and the links that are
    not in [visited] and start with the seed stand at the end of the queue,
    in the order of the page. *)
Lemma whileQueue_captured fuel u rest s page went links :
  queue s = u :: rest -> u ∉ visited s ->
  page_goto w (S (visitedCount s)) u = Some page ->
  captureScreenshotsForPage w u (cfg_resolutions cfg)
    (log s ++ [Shift u; Goto u true; CapturePage u])%list = Captured went ->
  fails w (log s ++ [Shift u; Goto u true; CapturePage u] ++ went)%list (GetLinks u)
    = false ->
  getLinksFromPage w page (cfg_domain cfg) = Some links ->
  whileQueue w cfg (S fuel) s =
  whileQueue w cfg fuel
    {| queue := (rest ++ List.filter
                   (fun link => negb (has ({[u]} ∪ visited s) link)
                                && JS.startsWith link (cfg_url cfg)) links)%list;
       visited := {[u]} ∪ visited s;
       visitedCount := S (visitedCount s);
       log := (log s ++ [Shift u; Goto u true; CapturePage u] ++ went ++ [GetLinks u]
                 ++ map Push (List.filter
                      (fun link => negb (has ({[u]} ∪ visited s) link)
                                   && JS.startsWith link (cfg_url cfg)) links))%list |}.
Proof.
  intros Hq Hu Hgo Hcap Hok Hlinks. cbn [whileQueue]. rewrite Hq. unfold loopBody.
  apply has_false in Hu. cbn [shift visited]. rewrite Hu.
  cbn [markVisited shift visitedCount emit log]. rewrite Hgo.
  cbn [app] in Hcap, Hok. repeat rewrite <- app_assoc. cbn [app].
  rewrite Hcap. cbn [emit log]. repeat rewrite <- app_assoc. cbn [app].
  rewrite Hok, Hlinks, fold_checkLink. f_equal. unfold admitted. cbn. f_equal.
  repeat (rewrite <- app_assoc; simpl). reflexivity.
Qed.


(** C6. The links a turn of the loop appends to the queue are not in
    [visited] (which by then holds the page they were found on) and start
    with the seed URL; in every state a run reaches, every URL in the queue
    and every URL ever pushed starts with the seed URL. *)
Theorem enqueued_links_new_and_under_seed :
  (forall u s, exists added,
     queue (after (loopBody w cfg u s)) = (queue s ++ added)%list /\
     pushed (log (after (loopBody w cfg u s))) = (pushed (log s) ++ added)%list /\
     forall link, In link added ->
       (link ∉ visited (after (loopBody w cfg u s))) /\
       (link ∉ visited s) /\
       JS.startsWith link (cfg_url cfg) = true) /\
  (forall fuel link,
     let s := final (captureScreenshotsForAllPages w cfg fuel) in
     In link (queue s) \/ In (Push link) (log s) ->
     exists t, link = cfg_url cfg ++ t).
Proof.
  split.
  - intros u s. destruct (loopBody_appends u s) as (added & Hq & Hp & _ & Hadd).
    exists added. split; [exact Hq|]. split; [exact Hp|].
    intros link Hin. destruct (Hadd link Hin) as [Hnv Hpre].
    split; [exact Hnv|]. split; [|exact Hpre].
    intros Hv. apply Hnv. clear - Hv.
    destruct (decide (u ∈ visited s)) as [Hu|Hu].
    + rewrite loopBody_seen by exact Hu. exact Hv.
    + destruct (loopBody_fresh u s Hu) as (evs & links & _ & ->). cbn. set_solver.
  - intros fuel link s. apply underSeed_run.
Qed.



(** C1. No URL is processed twice: in the log of a run, whatever its length,
    [captureScreenshotsForPage] is called at most once for [U], the links
    are extracted at most once for [U], and the screenshots taken of [U] are
    at most one per configured resolution.  A URL taken from the queue that
    is already in [visited] is dropped: the next turn starts with the same
    [visited], the same counter and two log lines more. *)
Theorem no_duplicate_processing (fuel : nat) (U : string) :
  let l := log (final (captureScreenshotsForAllPages w cfg fuel)) in
  times Capture U l <= 1 /\
  times Extract U l <= 1 /\
  times Shot U l <= length (cfg_resolutions cfg) /\
  forall fuel' rest s,
    queue s = U :: rest -> U ∈ visited s ->
    whileQueue w cfg (S fuel') s =
    whileQueue w cfg fuel'
      {| queue := rest; visited := visited s; visitedCount := visitedCount s;
         log := (log s ++ [Shift U; SkipVisited U])%list |}.
Proof.
  pose proof (tidy_run fuel) as Ht. cbv zeta.
  split; [exact (proj1 (Ht U Capture))|].
  split; [exact (proj1 (Ht U Extract))|].
  split; [exact (proj1 (Ht U Shot))|].
  intros fuel' rest s Hq Hu. apply whileQueue_seen; assumption.
Qed.

(** The loop on a queue whose head is new and cannot be loaded. *)
Lemma whileQueue_failed fuel u rest s :
  queue s = u :: rest -> u ∉ visited s ->
  page_goto w (S (visitedCount s)) u = None ->
  whileQueue w cfg (S fuel) s =
  whileQueue w cfg fuel
    {| queue := rest; visited := {[u]} ∪ visited s;
       visitedCount := S (visitedCount s);
       log := (log s ++ [Shift u; Goto u false])%list |}.
Proof.
  intros Hq Hu Hgo. cbn [whileQueue]. rewrite Hq. unfold loopBody.
  apply has_false in Hu. cbn [shift visited]. rewrite Hu.
  cbn [markVisited shift visitedCount]. rewrite Hgo. f_equal. same_state.
Qed.

Lemma loopBody_marks u s : u ∈ visited (after (loopBody w cfg u s)).
Proof.
  destruct (decide (u ∈ visited s)) as [Hu|Hu].
  - rewrite loopBody_seen by exact Hu. exact Hu.
  - destruct (loopBody_fresh u s Hu) as (evs & links & _ & ->). cbn. set_solver.
Qed.

(** C3. A URL taken from the queue and not yet visited is in [visited]
    when the turn ends, however the navigation went.  When the navigation
    fails the turn logs the failed [Goto] and nothing else, keeps the rest
    of the queue, and the loop goes on with it.  In the log of a run a URL
    whose navigation failed was navigated to once, is in [visited], and has
    no capture, no screenshot and no link extraction. *)
Theorem failed_navigation_skips_page :
  (forall u s, u ∈ visited (after (loopBody w cfg u s))) /\
  (forall fuel u rest s,
     queue s = u :: rest -> u ∉ visited s ->
     page_goto w (S (visitedCount s)) u = None ->
     whileQueue w cfg (S fuel) s =
     whileQueue w cfg fuel
       {| queue := rest; visited := {[u]} ∪ visited s;
          visitedCount := S (visitedCount s);
          log := (log s ++ [Shift u; Goto u false])%list |}) /\
  (forall fuel u,
     let s := final (captureScreenshotsForAllPages w cfg fuel) in
     In (Goto u false) (log s) ->
     u ∈ visited s /\
     times Navigate u (log s) = 1 /\
     times Capture u (log s) = 0 /\
     times Shot u (log s) = 0 /\
     times Extract u (log s) = 0).
Proof.
  split; [exact loopBody_marks|]. split; [exact whileQueue_failed|].
  intros fuel u s Hin. pose proof (tidy_run fuel) as Ht. fold s in Ht.
  pose proof (times_in_goto _ _ _ Hin) as Hge.
  destruct (Ht u Navigate) as (Hq & Hz & _). cbn in Hq.
  split.
  - destruct (decide (u ∈ visited s)) as [Hu|Hu]; [exact Hu|].
    specialize (Hz Hu). lia.
  - split; [lia|].
    split; [apply (Ht u Capture); [exact Hin|discriminate]|].
    split; [apply (Ht u Shot); [exact Hin|discriminate]|].
    apply (Ht u Extract); [exact Hin|discriminate].
Qed.

(** *** Termination *)

Lemma loopBody_grows u s : visited s ⊆ visited (after (loopBody w cfg u s)).
Proof.
  destruct (decide (u ∈ visited s)) as [Hu|Hu].
  - rewrite loopBody_seen by exact Hu. reflexivity.
  - destruct (loopBody_fresh u s Hu) as (evs & links & _ & ->). cbn.
    apply union_subseteq_r.
Qed.

Lemma whileQueue_empty fuel s : queue s = [] -> whileQueue w cfg fuel s = Done s.
Proof. intros Hq. destruct fuel; cbn; rewrite Hq; reflexivity. Qed.

Lemma unvisited_shrinks (R vis : gset string) u :
  u ∈ R -> u ∉ vis -> size (R ∖ ({[u]} ∪ vis)) < size (R ∖ vis).
Proof.
  intros HR Hv. apply subset_size. split.
  - intros x. rewrite !elem_of_difference, elem_of_union. tauto.
  - intros Hsub. specialize (Hsub u). rewrite !elem_of_difference, elem_of_union in Hsub.
    destruct Hsub as [_ Hn]; [split; assumption|].
    apply Hn. left. apply elem_of_singleton. reflexivity.
Qed.

(** A turn of the loop on a new page that loads and whose capture throws:
    the run is over, with the calls that went through in the log. *)
Lemma whileQueue_capture_threw fuel u rest s page went :
  queue s = u :: rest -> u ∉ visited s ->
  page_goto w (S (visitedCount s)) u = Some page ->
  captureScreenshotsForPage w u (cfg_resolutions cfg)
    (log s ++ [Shift u; Goto u true; CapturePage u])%list = CaptureThrew went ->
  whileQueue w cfg (S fuel) s =
  Aborted {| queue := rest; visited := {[u]} ∪ visited s;
             visitedCount := S (visitedCount s);
             log := (log s ++ [Shift u; Goto u true; CapturePage u] ++ went)%list |}.
Proof.
  intros Hq Hu Hgo Hcap. cbn [whileQueue]. rewrite Hq. unfold loopBody.
  apply has_false in Hu. cbn [shift visited]. rewrite Hu.
  cbn [markVisited shift visitedCount emit log]. rewrite Hgo.
  cbn [app] in Hcap. repeat rewrite <- app_assoc. cbn [app].
  rewrite Hcap. f_equal. unfold emit, markVisited, shift. cbn. f_equal.
  repeat (rewrite <- app_assoc; simpl). reflexivity.
Qed.

(** A turn of the loop on a new page that loads and is captured, and whose
    link extraction throws, for a reason of the environment or on an
    [href]: the run is over after the capture. *)
Lemma whileQueue_extraction_threw fuel u rest s page went :
  queue s = u :: rest -> u ∉ visited s ->
  page_goto w (S (visitedCount s)) u = Some page ->
  captureScreenshotsForPage w u (cfg_resolutions cfg)
    (log s ++ [Shift u; Goto u true; CapturePage u])%list = Captured went ->
  fails w (log s ++ [Shift u; Goto u true; CapturePage u] ++ went)%list (GetLinks u)
    = true \/
  getLinksFromPage w page (cfg_domain cfg) = None ->
  whileQueue w cfg (S fuel) s =
  Aborted {| queue := rest; visited := {[u]} ∪ visited s;
             visitedCount := S (visitedCount s);
             log := (log s ++ [Shift u; Goto u true; CapturePage u] ++ went
                       ++ [GetLinks u])%list |}.
Proof.
  intros Hq Hu Hgo Hcap Hwhy. cbn [whileQueue]. rewrite Hq. unfold loopBody.
  apply has_false in Hu. cbn [shift visited]. rewrite Hu.
  cbn [markVisited shift visitedCount emit log]. rewrite Hgo.
  cbn [app] in Hcap, Hwhy. repeat rewrite <- app_assoc. cbn [app].
  rewrite Hcap. cbn [emit log]. repeat rewrite <- app_assoc. cbn [app].
  destruct (fails w _ (GetLinks u)) eqn:Hfail.
  - f_equal. unfold emit, markVisited, shift. cbn. f_equal.
    repeat (rewrite <- app_assoc; simpl). reflexivity.
  - destruct Hwhy as [H|H]; [discriminate|]. rewrite H.
    f_equal. unfold emit, markVisited, shift. cbn. f_equal.
    repeat (rewrite <- app_assoc; simpl). reflexivity.
Qed.

Lemma whileQueue_ends (reach : list string) :
  (forall u, reachable w cfg u -> In u reach) ->
  forall n q vis cnt lg,
    size (list_to_set reach ∖ vis : gset string) < n ->
    (forall u, In u q -> reachable w cfg u) ->
    exists fuel, forall fuel', fuel <= fuel' ->
      ended w cfg
        (whileQueue w cfg fuel'
           {| queue := q; visited := vis; visitedCount := cnt; log := lg |}).
Proof.
  intros Hfinite. induction n as [|n IHn]; intros q vis cnt lg Hsize Hq; [lia|].
  revert lg. induction q as [|u rest IHq]; intros lg.
  - exists 0. intros fuel' _. rewrite whileQueue_empty by reflexivity. reflexivity.
  - assert (forall v, In v rest -> reachable w cfg v) as Hrest
      by (intros v Hv; apply Hq; right; exact Hv).
    assert (reachable w cfg u) as Hreach by (apply Hq; left; reflexivity).
    destruct (decide (u ∈ vis)) as [Hu|Hu].
    + destruct (IHq Hrest (lg ++ [Shift u; SkipVisited u])%list) as [fuel Hfuel].
      exists (S fuel). intros [|fuel'] Hle; [lia|].
      rewrite (whileQueue_seen fuel' u rest) by (reflexivity || exact Hu).
      apply Hfuel. lia.
    + assert (size (list_to_set reach ∖ ({[u]} ∪ vis) : gset string) < n) as Hless.
      { pose proof (unvisited_shrinks (list_to_set reach) vis u) as Hlt.
        assert (u ∈ (list_to_set reach : gset string)) as HuR
          by (apply elem_of_list_to_set, list_elem_of_In, Hfinite, Hreach).
        specialize (Hlt HuR Hu). lia. }
      destruct (page_goto w (S cnt) u) as [page|] eqn:Hgo.
      * destruct (captureScreenshotsForPage w u (cfg_resolutions cfg)
                    (lg ++ [Shift u; Goto u true; CapturePage u])%list)
          as [went|went] eqn:Hcap.
        -- destruct (fails w (lg ++ [Shift u; Goto u true; CapturePage u] ++ went)%list
                       (GetLinks u)) eqn:Hfail.
           { exists 1. intros [|fuel'] Hle; [lia|].
             rewrite (whileQueue_extraction_threw fuel' u rest _ page went)
               by (reflexivity || assumption || (left; exact Hfail)).
             exists (S cnt), u, page. split; [exact Hreach|]. split; [exact Hgo|].
             right. left. eexists. exact Hfail. }
           destruct (getLinksFromPage w page (cfg_domain cfg)) as [links|] eqn:Hlinks.
           ++ destruct (IHn (rest ++ List.filter
                               (fun link => negb (has ({[u]} ∪ vis) link)
                                            && JS.startsWith link (cfg_url cfg)) links)%list
                         ({[u]} ∪ vis) (S cnt)
                         (lg ++ [Shift u; Goto u true; CapturePage u] ++ went ++ [GetLinks u]
                             ++ map Push (List.filter
                                  (fun link => negb (has ({[u]} ∪ vis) link)
                                               && JS.startsWith link (cfg_url cfg)) links))%list
                         Hless)
                as [fuel Hfuel].
              { intros v Hv. apply in_app_or in Hv. destruct Hv as [Hv|Hv]; [exact (Hrest v Hv)|].
                apply filter_In in Hv. destruct Hv as [Hv Hok].
                apply andb_true_iff in Hok. destruct Hok as [_ Hpre].
                exact (reachable_link w cfg u (S cnt) page links v Hreach Hgo Hlinks Hv Hpre). }
              exists (S fuel). intros [|fuel'] Hle; [lia|].
              rewrite (whileQueue_captured fuel' u rest _ page went links)
                by (reflexivity || assumption).
              apply Hfuel. lia.
           ++ exists 1. intros [|fuel'] Hle; [lia|].
              rewrite (whileQueue_extraction_threw fuel' u rest _ page went)
                by (reflexivity || assumption || (right; exact Hlinks)).
              exists (S cnt), u, page. split; [exact Hreach|]. split; [exact Hgo|].
              right. right. exact Hlinks.
        -- exists 1. intros [|fuel'] Hle; [lia|].
           rewrite (whileQueue_capture_threw fuel' u rest _ page went)
             by (reflexivity || assumption).
           exists (S cnt), u, page. split; [exact Hreach|]. split; [exact Hgo|].
           left. eexists _, went. exact Hcap.
      * destruct (IHn rest ({[u]} ∪ vis) (S cnt) (lg ++ [Shift u; Goto u false])%list
                    Hless Hrest) as [fuel Hfuel].
        exists (S fuel). intros [|fuel'] Hle; [lia|].
        rewrite (whileQueue_failed fuel' u rest) by (reflexivity || assumption).
        apply Hfuel. lia.
Qed.

(** C2, as the script has it.  When the URLs the crawl can come to, the
    seed and the links under the seed found from it page after page, all
    lie in a finite list, the loop stops after finitely many turns: from
    some amount of fuel on, the run ends with the queue empty, or it ends
    early because on some page the crawl can come to the capture or the
    link extraction threw.  [visited] never loses an element in a turn,
    the URL a turn took from the queue is in [visited] when the turn is
    over, and what a turn adds to the queue is not in [visited]. *)
Theorem crawl_terminates (reach : list string) :
  (forall u, reachable w cfg u -> In u reach) ->
  (exists fuel, forall fuel', fuel <= fuel' ->
     ended w cfg (captureScreenshotsForAllPages w cfg fuel')) /\
  (forall u s, visited s ⊆ visited (after (loopBody w cfg u s))) /\
  (forall u s, u ∈ visited (after (loopBody w cfg u s))) /\
  (forall u s, exists added,
     queue (after (loopBody w cfg u s)) = (queue s ++ added)%list /\
     forall link, In link added -> link ∉ visited (after (loopBody w cfg u s))).
Proof.
  intros Hfinite.
  split; [|split; [exact loopBody_grows | split; [exact loopBody_marks|]]].
  2: { intros u s. destruct (loopBody_appends u s) as (added & Hq & _ & _ & Hadd).
       exists added. split; [exact Hq|]. intros link Hin. exact (proj1 (Hadd link Hin)). }
  unfold captureScreenshotsForAllPages, initial.
  apply (whileQueue_ends reach Hfinite
           (S (size (list_to_set reach ∖ ∅ : gset string)))).
  - lia.
  - intros u [<-|[]]. apply reachable_seed.
Qed.

End Crawl.

(** ** The properties on the small site *)

Lemma no_duplicate_processing_witness :
  let a := "https://example.com/a" in
  let s := {| queue := [a]; visited := {[ a ]}; visitedCount := 1; log := [] |} in
  queue s = a :: [] /\ a ∈ visited s /\
  whileQueue Demo.world Demo.cfg 1 s =
  whileQueue Demo.world Demo.cfg 0
    {| queue := []; visited := visited s; visitedCount := visitedCount s;
       log := (log s ++ [Shift a; SkipVisited a])%list |}.
Proof.
  cbv zeta. split; [reflexivity|]. split; [apply has_true; reflexivity|].
  apply (no_duplicate_processing Demo.world Demo.cfg 10 "https://example.com/a").
  - reflexivity.
  - apply has_true. reflexivity.
Defined.

Lemma failed_navigation_skips_page_witness :
  let b := "https://example.com/b" in
  let s := final (captureScreenshotsForAllPages Demo.world Demo.cfg 10) in
  In (Goto b false) (log s) /\
  b ∈ visited s /\ times Navigate b (log s) = 1 /\ times Capture b (log s) = 0 /\
  times Shot b (log s) = 0 /\ times Extract b (log s) = 0.
Proof.
  cbv zeta.
  assert (In (Goto "https://example.com/b" false)
            (log (final (captureScreenshotsForAllPages Demo.world Demo.cfg 10)))) as Hin.
  { vm_compute. tauto. }
  split; [exact Hin|].
  exact (proj2 (proj2 (failed_navigation_skips_page Demo.world Demo.cfg)) 10 _ Hin).
Defined.

Lemma demo_closed :
  closed Demo.world Demo.cfg ["https://example.com/a"; "https://example.com/b"].
Proof.
  intros n u page links link Hgo Hlinks Hin _. cbn in Hgo. unfold Demo.site in Hgo.
  destruct (String.eqb u "https://example.com/").
  - injection Hgo as <-. vm_compute in Hlinks. injection Hlinks as <-.
    cbn in Hin. cbn. tauto.
  - destruct (String.eqb u "https://example.com/a"); [|discriminate].
    injection Hgo as <-. vm_compute in Hlinks. injection Hlinks as <-.
    cbn in Hin. cbn. tauto.
Defined.

Ltac follow_links IH Hgo Hlinks Hin :=
  repeat (destruct IH as [<-|IH]; [
    first [ discriminate Hgo
          | injection Hgo as <-; vm_compute in Hlinks;
            first [ discriminate Hlinks
                  | injection Hlinks as <-; cbn in Hin; cbn; tauto ] ] |]);
  destruct IH.

Lemma demo_reachable :
  forall u, reachable Demo.world Demo.cfg u ->
  In u ["https://example.com/"; "https://example.com/a"; "https://example.com/b"].
Proof.
  induction 1 as [|u n page links link _ IH Hgo Hlinks Hin _]; [left; reflexivity|].
  follow_links IH Hgo Hlinks Hin.
Defined.

Lemma crawl_terminates_witness :
  (forall u, reachable Demo.world Demo.cfg u ->
     In u ["https://example.com/"; "https://example.com/a"; "https://example.com/b"]) /\
  (exists fuel, forall fuel', fuel <= fuel' ->
     ended Demo.world Demo.cfg (captureScreenshotsForAllPages Demo.world Demo.cfg fuel')).
Proof.
  split; [exact demo_reachable|].
  exact (proj1 (crawl_terminates Demo.world Demo.cfg _ demo_reachable)).
Defined.

(** On the broken site the URLs the crawl can come to are three, and the
    run stops at the second turn with a URL left in the queue, whatever the
    fuel: it never ends with the queue empty. *)
Lemma crawl_terminates_counterexample :
  (forall u, reachable Demo.broken Demo.cfg u ->
     In u ["https://example.com/"; "https://example.com/a"; "https://example.com/b"]) /\
  (exists s, captureScreenshotsForAllPages Demo.broken Demo.cfg 2 = Aborted s /\
             queue s = ["https://example.com/b"]) /\
  forall fuel s, captureScreenshotsForAllPages Demo.broken Demo.cfg fuel <> Done s.
Proof.
  split; [|split].
  - induction 1 as [|u n page links link _ IH Hgo Hlinks Hin _]; [left; reflexivity|].
    follow_links IH Hgo Hlinks Hin.
  - eexists. split; vm_compute; reflexivity.
  - intros [|[|fuel]] s; vm_compute; discriminate.
Qed.

Lemma enqueued_links_new_and_under_seed_witness :
  let s := final (captureScreenshotsForAllPages Demo.world Demo.cfg 1) in
  (In "https://example.com/a" (queue s) \/ In (Push "https://example.com/a") (log s)) /\
  exists t, "https://example.com/a" = cfg_url Demo.cfg ++ t.
Proof.
  cbv zeta.
  assert (In "https://example.com/a"
            (queue (final (captureScreenshotsForAllPages Demo.world Demo.cfg 1)))) as Hin.
  { vm_compute. tauto. }
  split; [left; exact Hin|].
  exact (proj2 (enqueued_links_new_and_under_seed Demo.world Demo.cfg) 1 _ (or_introl Hin)).
Defined.


Lemma illegal_hrefs_rejected_witness :
  rejectedHref (Some "/products#top") /\
  checkAnchor Demo.world "https://example.com/" "example.com" (Some "/products#top")
    = Skipped.
Proof.
  assert (rejectedHref (Some "/products#top")) as Hrej.
  { right. right. exists "#", "/products", "top". split; [cbn; tauto | reflexivity]. }
  split; [exact Hrej|].
  exact (proj1 (illegal_hrefs_rejected Demo.world) _ _ _ Hrej).
Defined.

Lemma admitted_links_in_domain_witness :
  let page := {| location_href := "https://example.com/";
                 anchors := [Some "/a"; Some "https://other.com/x"] |} in
  getLinksFromPage Demo.world page "example.com" = Some ["https://example.com/a"] /\
  exists h u, In (Some h) (anchors page) /\
              newURL Demo.world h (location_href page) = Some u /\
              url_hostname u = "example.com" /\
              checkAnchor Demo.world (location_href page) "example.com" (Some h)
                = Pushed "https://example.com/a".
Proof.
  cbv zeta. split; [reflexivity|].
  apply (proj1 (admitted_links_in_domain Demo.world) _ _ ["https://example.com/a"]).
  - reflexivity.
  - left. reflexivity.
Defined.

Lemma links_resolved_unless_schemed_witness :
  let page := {| location_href := "https://example.com/";
                 anchors := [Some "/a"; Some "https://example.com"] |} in
  getLinksFromPage Demo.world page "example.com"
    = Some ["https://example.com/a"; "https://example.com"] /\
  exists h u, In (Some h) (anchors page) /\
              newURL Demo.world h (location_href page) = Some u /\
              url_hostname u = "example.com" /\
              ((JS.includes h "://" = false /\ "https://example.com" = url_href u) \/
               (JS.includes h "://" = true /\ "https://example.com" = h)).
Proof.
  cbv zeta. split; [reflexivity|].
  apply (links_resolved_unless_schemed Demo.world _ _
           ["https://example.com/a"; "https://example.com"]).
  - reflexivity.
  - right. left. reflexivity.
Defined.

(** An [href] with a scheme is returned as it is written, which need not be
    what it resolves to: [https://example.com] resolves to
    [https://example.com/]. *)
Lemma links_resolved_counterexample :
  let page := {| location_href := "https://example.com/";
                 anchors := [Some "https://example.com"] |} in
  getLinksFromPage Demo.world page "example.com" = Some ["https://example.com"] /\
  ~ (forall link, In link ["https://example.com"] ->
       exists h u, In (Some h) (anchors page) /\
                   newURL Demo.world h (location_href page) = Some u /\
                   link = url_href u).
Proof.
  cbv zeta. split; [reflexivity|].
  intros H. destruct (H "https://example.com" (or_introl eq_refl)) as (h & u & Hin & Hu & Hl).
  destruct Hin as [[= <-]|[]]. vm_compute in Hu. injection Hu as <-. discriminate.
Qed.

(** A [..] segment is resolved by [path.join]: the screenshots of
    [https://example.com/..] land in the [images] directory itself, not in
    a directory under the host name. *)
Lemma output_path_counterexample :
  segments "https://example.com/.." = ["example.com"; ".."] /\
  In (WriteFile "/work/images/800x600.png")
     (log (final (captureScreenshotsForAllPages Demo.dotted Demo.cfg 5))) /\
  filenameFor Demo.dotted "https://example.com/.." "800x600"
    = Some "/work/images/800x600.png" /\
  specPath (dirname Demo.dotted) "https://example.com/.." "800x600"
    = Some "/work/images/example.com/../800x600.png" /\
  filenameFor Demo.dotted "https://example.com/.." "800x600"
    <> specPath (dirname Demo.dotted) "https://example.com/.." "800x600".
Proof.
  split; [reflexivity|]. split; [vm_compute; tauto|].
  split; [reflexivity|]. split; [reflexivity|]. discriminate.
Qed.

(** ** Duplicates in the queue *)

Lemma checkLink_queue (cfg : Config) (s : state) (link : string) :
  queue (checkLink cfg s link) =
  (queue s ++ if negb (has (visited s) link) && JS.startsWith link (cfg_url cfg)
              then [link] else [])%list.
Proof.
  unfold checkLink.
  destruct (negb (has (visited s) link) && JS.startsWith link (cfg_url cfg)).
  - reflexivity.
  - rewrite app_nil_r. reflexivity.
Qed.

(** C10. A URL can sit in the queue twice: whether a link is pushed depends
    on [visited] and on the seed prefix only, so a link already waiting in
    the queue is pushed again, as on the small site, whose queue after the
    first turn holds [/a] twice.  What keeps the work from being done twice
    is the test at the head of the loop: a URL taken from the queue that is
    in [visited] is dropped, and on the small site [/a] is captured once. *)
Theorem queue_may_hold_duplicates :
  (forall cfg s link,
     queue (checkLink cfg s link) =
     (queue s ++ if negb (has (visited s) link) && JS.startsWith link (cfg_url cfg)
                 then [link] else [])%list) /\
  (forall cfg s link,
     In link (queue s) -> link ∉ visited s ->
     JS.startsWith link (cfg_url cfg) = true ->
     queue (checkLink cfg s link) = (queue s ++ [link])%list) /\
  queue (final (captureScreenshotsForAllPages Demo.world Demo.cfg 1))
    = ["https://example.com/a"; "https://example.com/a"; "https://example.com/b"] /\
  (forall w cfg fuel u rest s,
     queue s = u :: rest -> u ∈ visited s ->
     whileQueue w cfg (S fuel) s =
     whileQueue w cfg fuel
       {| queue := rest; visited := visited s; visitedCount := visitedCount s;
          log := (log s ++ [Shift u; SkipVisited u])%list |}) /\
  (let l := log (final (captureScreenshotsForAllPages Demo.world Demo.cfg 10)) in
   times Navigate "https://example.com/a" l = 1 /\
   times Capture "https://example.com/a" l = 1 /\
   times Extract "https://example.com/a" l = 1 /\
   In (SkipVisited "https://example.com/a") l).
Proof.
  split; [exact checkLink_queue|]. split.
  - intros cfg s link _ Hv Hpre. rewrite checkLink_queue.
    apply has_false in Hv. rewrite Hv, Hpre. reflexivity.
  - split; [reflexivity|]. split.
    + intros w cfg fuel u rest s. apply whileQueue_seen.
    + vm_compute. repeat split; tauto.
Qed.

Lemma queue_may_hold_duplicates_witness :
  let a := "https://example.com/a" in
  let s := {| queue := [a]; visited := ∅; visitedCount := 0; log := [] |} in
  In a (queue s) /\ (a ∉ visited s) /\
  JS.startsWith a (cfg_url Demo.cfg) = true /\
  queue (checkLink Demo.cfg s a) = [a; a].
Proof.
  cbv zeta. split; [left; reflexivity|].
  split; [apply has_false; reflexivity|]. split; [reflexivity|].
  apply (proj1 (proj2 queue_may_hold_duplicates) Demo.cfg
           {| queue := ["https://example.com/a"]; visited := ∅;
              visitedCount := 0; log := [] |}).
  - left. reflexivity.
  - apply has_false. reflexivity.
  - reflexivity.
Defined.

(** * Further properties of the script *)

(** ** Segments and sanitizing *)
Section SegmentFacts.

Lemma split_snoc sep s :
  JS.split sep (s ++ String sep "") = (JS.split sep s ++ [""])%list.
Proof.
  induction s as [|c s IH].
  - rewrite append_nil. cbn [JS.split]. rewrite Ascii.eqb_refl. reflexivity.
  - rewrite append_cons. cbn [JS.split]. rewrite IH.
    destruct (Ascii.eqb c sep); [reflexivity|].
    pose proof (split_not_nil sep s) as Hnil.
    destruct (JS.split sep s) as [|seg segs]; [congruence | reflexivity].
Qed.

Lemma segments_pieces url :
  segments url =
  List.filter (fun segment => negb (String.eqb segment "") && negb (String.eqb segment "https:"))
    (JS.split "/" url).
Proof. reflexivity. Qed.

(** A slash at the end of a URL does not change where its screenshots go:
    the URL with the slash and the URL without it have the same segments,
    the same directory and the same files. *)
Theorem trailing_slash_same_files (w : World) (url resolution : string) :
  segments (url ++ "/") = segments url /\
  directoryFor w (url ++ "/") = directoryFor w url /\
  filenameFor w (url ++ "/") resolution = filenameFor w url resolution.
Proof.
  assert (segments (url ++ "/") = segments url) as Hseg.
  { rewrite !segments_pieces, split_snoc, List.filter_app. cbn. apply app_nil_r. }
  split; [exact Hseg|].
  unfold filenameFor, directoryFor. rewrite Hseg. split; reflexivity.
Qed.

(** The scheme of the URL: [https:] is dropped and the host name is the
    first segment; [http:] is kept, so for an [http] URL the directory under
    [images] is named [http:] and the host name comes after it, sanitized
    like a path segment. *)
Theorem scheme_segments (w : World) (rest : string) :
  segments ("https://" ++ rest) = segments rest /\
  segments ("http://" ++ rest) = "http:" :: segments rest /\
  directoryFor w ("http://" ++ rest) =
    Some (Path.join (dirname w :: "images" :: "http:" ::
                       map (JS.strip unsafe_char) (segments rest))).
Proof.
  assert (JS.split "/" ("https://" ++ rest) = "https:" :: "" :: JS.split "/" rest) as H1.
  { change ("https://" ++ rest) with ("https:" ++ String "/" (String "/" rest)).
    rewrite split_sep by reflexivity. cbn [JS.split]. rewrite Ascii.eqb_refl. reflexivity. }
  assert (JS.split "/" ("http://" ++ rest) = "http:" :: "" :: JS.split "/" rest) as H2.
  { change ("http://" ++ rest) with ("http:" ++ String "/" (String "/" rest)).
    rewrite split_sep by reflexivity. cbn [JS.split]. rewrite Ascii.eqb_refl. reflexivity. }
  assert (segments ("http://" ++ rest) = "http:" :: segments rest) as H3.
  { rewrite !segments_pieces, H2. reflexivity. }
  split; [rewrite !segments_pieces, H1; reflexivity|]. split; [exact H3|].
  unfold directoryFor. rewrite H3. reflexivity.
Qed.

Lemma no_directory_without_segments (w : World) (url : string) :
  directoryFor w url = None <->
  forall piece, In piece (JS.split "/" url) -> piece = "" \/ piece = "https:".
Proof.
  unfold directoryFor. rewrite segments_pieces. split.
  - intros Hnone piece Hin.
    destruct (String.eqb_spec piece "") as [He|He]; [left; exact He|].
    destruct (String.eqb_spec piece "https:") as [Hh|Hh]; [right; exact Hh|].
    exfalso.
    assert (In piece (List.filter
              (fun segment => negb (String.eqb segment "") && negb (String.eqb segment "https:"))
              (JS.split "/" url))) as Hf.
    { apply filter_In. split; [exact Hin|].
      apply String.eqb_neq in He, Hh. rewrite He, Hh. reflexivity. }
    destruct (List.filter _ (JS.split "/" url)); [destruct Hf | discriminate].
  - intros Hall.
    destruct (List.filter _ (JS.split "/" url)) as [|seg segs] eqn:Hf; [reflexivity|].
    assert (In seg (seg :: segs)) as Hin by (left; reflexivity).
    rewrite <- Hf in Hin. apply filter_In in Hin. destruct Hin as [Hin Hok].
    apply andb_true_iff in Hok. destruct Hok as [He Hh].
    apply negb_true_iff, String.eqb_neq in He, Hh.
    destruct (Hall seg Hin); congruence.
Qed.

Lemma perform_all (w : World) done calls :
  (forall before op, fails w before op = false) ->
  perform w done calls = (calls, false).
Proof.
  intros Hquiet. revert done. induction calls as [|op calls IH]; intros done; [reflexivity|].
  cbn [perform]. rewrite Hquiet, IH. reflexivity.
Qed.

(** [captureScreenshotsForPage] throws before it does anything exactly for
    the URLs without a usable segment, those whose pieces between slashes
    are all empty or [https:] (the empty string, a run of slashes, a bare
    [https://]), for which [path.join] gets no host name; when none of its
    calls fails these are the only URLs for which it throws.  Any other
    throw is that of a call that fails, after the calls before it went
    through.  When it returns it has made the directory and two calls for
    each resolution. *)
Theorem capture_throws_without_segments (w : World) (url : string) (resolutions : list string)
    (done : list event) :
  (directoryFor w url = None <->
   forall piece, In piece (JS.split "/" url) -> piece = "" \/ piece = "https:") /\
  (directoryFor w url = None ->
   captureScreenshotsForPage w url resolutions done = CaptureThrew []) /\
  ((forall before op, fails w before op = false) ->
   ((exists went, captureScreenshotsForPage w url resolutions done = CaptureThrew went) <->
    forall piece, In piece (JS.split "/" url) -> piece = "" \/ piece = "https:")) /\
  (forall went, captureScreenshotsForPage w url resolutions done = CaptureThrew went ->
     (directoryFor w url = None /\ went = []) \/
     exists directory op rest,
       directoryFor w url = Some directory /\
       captureCalls url directory resolutions = (went ++ op :: rest)%list /\
       fails w (done ++ went) op = true) /\
  (forall went, captureScreenshotsForPage w url resolutions done = Captured went ->
     length went = 1 + 2 * length resolutions /\
     exists hostname rest, segments url = hostname :: rest /\
                           hostname <> "" /\ JS.has_char "/" hostname = false).
Proof.
  split; [apply no_directory_without_segments|]. split; [|split; [|split]].
  - intros Hnone. unfold captureScreenshotsForPage. rewrite Hnone. reflexivity.
  - intros Hquiet. rewrite <- (no_directory_without_segments w url). split.
    + intros [went Hcap]. unfold captureScreenshotsForPage in Hcap.
      destruct (directoryFor w url) as [directory|] eqn:Hdir; [|reflexivity].
      rewrite perform_all in Hcap by exact Hquiet. discriminate.
    + intros Hnone. exists []. unfold captureScreenshotsForPage. rewrite Hnone. reflexivity.
  - intros went. apply capture_threw.
  - intros went Hcap. apply capture_returned in Hcap.
    destruct Hcap as (directory & Hdir & ->). split.
    + unfold captureCalls. cbn [length]. f_equal.
      induction resolutions as [|r rs IH]; [reflexivity|].
      cbn [map concat]. rewrite length_app, IH. unfold captureOne.
      destruct (widthHeight r). cbn. lia.
    + unfold directoryFor in Hdir.
      destruct (segments url) as [|hostname rest] eqn:Hseg; [discriminate|].
      exists hostname, rest. split; [reflexivity|].
      assert (In hostname (segments url)) as Hin by (rewrite Hseg; left; reflexivity).
      rewrite segments_pieces in Hin. apply filter_In in Hin. destruct Hin as [Hin Hok].
      apply andb_true_iff in Hok. destruct Hok as [He _].
      apply negb_true_iff, String.eqb_neq in He. split; [exact He|].
      pose proof (split_pieces "/" url) as Hp. rewrite Forall_forall in Hp.
      apply Hp, list_elem_of_In, Hin.
Qed.

(** Sanitizing leaves a segment without characters of the class as it is,
    so sanitizing twice is sanitizing once; it works character by character
    and never makes a segment longer. *)
Theorem strip_clean_segments (cls : ascii -> bool) (s t : string) :
  ((forall c, JS.has_char c s = true -> cls c = false) -> JS.strip cls s = s) /\
  JS.strip cls (JS.strip cls s) = JS.strip cls s /\
  JS.strip cls (s ++ t) = JS.strip cls s ++ JS.strip cls t /\
  String.length (JS.strip cls s) <= String.length s.
Proof.
  assert (forall x, (forall c, JS.has_char c x = true -> cls c = false) ->
                    JS.strip cls x = x) as Hclean.
  { induction x as [|c x IH]; intros Hx; [reflexivity|]. cbn [JS.strip].
    rewrite (Hx c) by (cbn; rewrite Ascii.eqb_refl; reflexivity).
    rewrite IH; [reflexivity|]. intros d Hd. apply Hx. cbn. rewrite Hd. apply orb_true_r. }
  split; [apply Hclean|]. split; [|split].
  - apply Hclean. intros c Hc. rewrite has_char_strip in Hc.
    apply andb_true_iff in Hc. destruct Hc as [_ Hc]. apply negb_true_iff, Hc.
  - induction s as [|c s IH]; [reflexivity|]. rewrite append_cons. cbn [JS.strip].
    rewrite IH. destruct (cls c); [reflexivity | rewrite append_cons; reflexivity].
  - induction s as [|c s IH]; [reflexivity|]. cbn [JS.strip].
    destruct (cls c); cbn [String.length]; lia.
Qed.

End SegmentFacts.

(** ** Resolutions *)
Section ResolutionFacts.

(** A resolution string without an [x] gives the viewport the whole string
    as its width and no height at all; the file is still named after the
    string. *)
Theorem resolution_without_x (url directory resolution : string) :
  JS.has_char "x" resolution = false ->
  widthHeight resolution = (Number resolution, undefined) /\
  captureOne url directory resolution =
    [Screenshot url resolution (Number resolution) undefined;
     WriteFile (Path.join [directory; resolution ++ ".png"])].
Proof.
  intros Hx.
  assert (widthHeight resolution = (Number resolution, undefined)) as Hwh.
  { unfold widthHeight. rewrite split_nosep by exact Hx. reflexivity. }
  split; [exact Hwh|]. unfold captureOne. rewrite Hwh. reflexivity.
Qed.

(** Only the first two pieces of a resolution string count: what follows a
    second [x] never reaches the viewport. *)
Theorem resolution_extra_pieces_ignored (a b c : string) :
  JS.has_char "x" a = false -> JS.has_char "x" b = false ->
  widthHeight (a ++ "x" ++ b ++ "x" ++ c) = (Number a, Number b) /\
  widthHeight (a ++ "x" ++ b) = (Number a, Number b).
Proof.
  intros Ha Hb. unfold widthHeight.
  change ("x" ++ b ++ "x" ++ c) with (String "x" (b ++ String "x" c)).
  change ("x" ++ b) with (String "x" b).
  rewrite !split_sep by assumption. rewrite (split_nosep "x" b) by exact Hb.
  pose proof (split_not_nil "x" c) as Hnil.
  destruct (JS.split "x" c); [congruence|]. split; reflexivity.
Qed.

End ResolutionFacts.

Lemma resolution_without_x_witness :
  JS.has_char "x" "800-600" = false /\
  widthHeight "800-600" = (Number "800-600", undefined).
Proof.
  split; [reflexivity|].
  exact (proj1 (resolution_without_x "https://example.com/" "/work" "800-600" eq_refl)).
Defined.

Lemma resolution_extra_pieces_ignored_witness :
  widthHeight "800x600x32" = (Number "800", Number "600").
Proof.
  exact (proj1 (resolution_extra_pieces_ignored "800" "600" "32" eq_refl eq_refl)).
Defined.

(** ** More on link extraction *)
Section MoreLinks.

Context (w : World).



(** The anchors are taken one after the other: the links of a page are
    the links of its first anchors followed by the links of the others, and
    nothing is returned once an anchor threw.  A page never yields more
    links than it has anchors, and repeated anchors give repeated links. *)
Theorem extraction_in_document_order (location domain : string)
    (first others : list (option string)) (links : list string) :
  scanAnchors w location domain (first ++ others) links =
    match scanAnchors w location domain first links with
    | Some found => scanAnchors w location domain others found
    | None => None
    end /\
  (forall out, scanAnchors w location domain first [] = Some out ->
               length out <= length first) /\
  (forall out, scanAnchors w location domain first [] = Some out ->
               scanAnchors w location domain (first ++ first) [] = Some (out ++ out)%list).
Proof.
  assert (forall xs ys acc,
            scanAnchors w location domain (xs ++ ys) acc =
            match scanAnchors w location domain xs acc with
            | Some found => scanAnchors w location domain ys found
            | None => None
            end) as Happ.
  { induction xs as [|a xs IH]; intros ys acc; [reflexivity|]. cbn [app scanAnchors].
    destruct (checkAnchor w location domain a); [apply IH | apply IH | reflexivity]. }
  split; [apply Happ|]. split.
  - intros out Hout. apply scanAnchors_spec in Hout. destruct Hout as [_ ->].
    cbn [app]. clear. induction first as [|a xs IH]; [reflexivity|].
    change (omap (contribution w location domain) (a :: xs))
      with (match contribution w location domain a with
            | Some link => link :: omap (contribution w location domain) xs
            | None => omap (contribution w location domain) xs
            end).
    destruct (contribution w location domain a); cbn [length]; lia.
  - intros out Hout. rewrite Happ, Hout.
    apply scanAnchors_spec in Hout. destruct Hout as [Hall ->].
    apply scanAnchors_spec. split; [exact Hall | reflexivity].
Qed.

End MoreLinks.


(** ** More on the loop *)
Section RunFacts.

Context (w : World) (cfg : Config).

Lemma size_list_to_set_le (l : list string) :
  size (list_to_set l : gset string) <= length l.
Proof.
  induction l as [|x l IH]; [rewrite list_to_set_nil, size_empty; lia|].
  rewrite list_to_set_cons, size_union_alt, size_singleton. cbn [length].
  assert (size (list_to_set l ∖ {[x]} : gset string) <= size (list_to_set l : gset string))
    by (apply subseteq_size, subseteq_difference_l; reflexivity).
  lia.
Qed.

Lemma navigated_shift_skip u :
  navigated [Shift u] = [] /\ navigated [SkipVisited u] = [].
Proof. split; reflexivity. Qed.

Lemma counted_run (fuel : nat) :
  let s := final (captureScreenshotsForAllPages w cfg fuel) in
  visitedCount s = size (visited s) /\
  visitedCount s = length (navigated (log s)) /\
  visitedCount s <= length (shifted (log s)).
Proof.
  cbv zeta. unfold captureScreenshotsForAllPages.
  apply (whileQueue_invariant w cfg
           (fun s => visitedCount s = size (visited s) /\
                     visitedCount s = length (navigated (log s)) /\
                     visitedCount s <= length (shifted (log s)))).
  - intros u rest s _ (Hsize & Hnav & Hle).
    destruct (decide (u ∈ visited s)) as [Hu|Hu].
    + rewrite loopBody_seen by exact Hu. cbn [after emit shift log visited visitedCount].
      unfold navigated, shifted in *. rewrite !omap_app, !length_app. cbn.
      split; [exact Hsize|]. split; lia.
    + destruct (loopBody_fresh w cfg u (shift u rest s) Hu) as (evs & links & Hev & ->).
      destruct (visit_quiet w cfg u evs Hev) as (_ & Hsh & Hna).
      cbn [shift log visited visitedCount]. unfold navigated, shifted in *.
      rewrite !omap_app, Hsh, Hna, !length_app.
      fold (navigated (map Push (admitted cfg ({[u]} ∪ visited s) links))).
      fold (shifted (map Push (admitted cfg ({[u]} ∪ visited s) links))).
      rewrite navigated_pushes, shifted_pushes. cbn [length omap list_omap].
      split; [|split; lia].
      rewrite size_union by (apply disjoint_singleton_l; exact Hu).
      rewrite size_singleton. lia.
  - cbn. rewrite size_empty. repeat split; lia.
Qed.

(** The counter of the pages visited is the size of [visited] and the
    number of navigations tried, in every state a run reaches: a page whose
    navigation failed counts like the others. *)
Theorem visitedCount_counts_navigations (fuel : nat) :
  let s := final (captureScreenshotsForAllPages w cfg fuel) in
  visitedCount s = size (visited s) /\
  visitedCount s = length (navigated (log s)) /\
  visitedCount s <= length (shifted (log s)).
Proof. exact (counted_run fuel). Qed.

(** [visited] holds exactly the URLs taken from the queue so far, which
    are exactly the URLs navigated to, and none was navigated to twice. *)
Theorem visited_are_the_dequeued (fuel : nat) (u : string) :
  let s := final (captureScreenshotsForAllPages w cfg fuel) in
  (u ∈ visited s <-> In u (shifted (log s))) /\
  (u ∈ visited s <-> In u (navigated (log s))) /\
  NoDup (navigated (log s)).
Proof.
  cbv zeta. destruct (breadthFirst_run w cfg fuel) as [Hnav Hvis].
  split; [apply Hvis|]. rewrite Hnav. unfold firstOccurrences. split.
  - rewrite Hvis, <- in_rev, <- !list_elem_of_In, elem_of_remove_dups.
    rewrite !list_elem_of_In. apply in_rev.
  - apply NoDup_ListNoDup, List.NoDup_rev, NoDup_ListNoDup, NoDup_remove_dups.
Qed.

(** Every URL in [visited] is the seed or has the seed as a prefix, as a
    string.  The test of line 163 is on the text of the link as it was
    queued; it says nothing of the address the browser makes of it. *)
Theorem visited_under_seed (fuel : nat) (u : string) :
  let s := final (captureScreenshotsForAllPages w cfg fuel) in
  u ∈ visited s -> exists t, u = cfg_url cfg ++ t.
Proof.
  cbv zeta. intros Hu.
  apply (proj2 (breadthFirst_run w cfg fuel)) in Hu.
  pose proof (fifo_run w cfg fuel) as Hfifo. unfold fifo in Hfifo.
  assert (In u (cfg_url cfg ::
                pushed (log (final (captureScreenshotsForAllPages w cfg fuel))))) as Hin
    by (rewrite <- Hfifo; apply in_or_app; left; exact Hu).
  destruct Hin as [<-|Hin].
  - exists "". symmetry. apply append_nil_r.
  - apply (underSeed_run w cfg fuel). right. apply in_push_pushed. exact Hin.
Qed.

(** When the seed itself cannot be loaded the run is over after one turn:
    the seed is counted as visited, nothing is captured and nothing is
    written. *)
Theorem seed_navigation_fails (fuel : nat) :
  page_goto w 1 (cfg_url cfg) = None ->
  captureScreenshotsForAllPages w cfg (S fuel) =
  Done {| queue := []; visited := {[ cfg_url cfg ]}; visitedCount := 1;
          log := [Shift (cfg_url cfg); Goto (cfg_url cfg) false] |}.
Proof.
  intros Hgo. unfold captureScreenshotsForAllPages, initial.
  rewrite (whileQueue_failed w cfg fuel (cfg_url cfg) [])
    by (reflexivity || exact Hgo || apply not_elem_of_empty).
  rewrite whileQueue_empty by reflexivity. cbn. rewrite union_empty_r_L. reflexivity.
Qed.

Lemma whileQueue_log_grows fuel s :
  exists more, log (final (whileQueue w cfg fuel s)) = (log s ++ more)%list.
Proof.
  apply (whileQueue_invariant w cfg (fun s' => exists more, log s' = (log s ++ more)%list)).
  - intros u rest s' _ [more Hmore].
    destruct (decide (u ∈ visited s')) as [Hu|Hu].
    + rewrite loopBody_seen by exact Hu. cbn. rewrite Hmore.
      eexists. rewrite <- !app_assoc. reflexivity.
    + destruct (loopBody_fresh w cfg u (shift u rest s') Hu) as (evs & links & _ & ->).
      cbn. rewrite Hmore. eexists. rewrite <- !app_assoc. reflexivity.
  - exists []. symmetry. apply app_nil_r.
Qed.

(** The seed is navigated to first, without any test of its host name or
    of anything else, and is in [visited] from the first turn on. *)
Theorem seed_visited_first (fuel : nat) :
  let s := final (captureScreenshotsForAllPages w cfg (S fuel)) in
  cfg_url cfg ∈ visited s /\
  exists ok more, log s = Shift (cfg_url cfg) :: Goto (cfg_url cfg) ok :: more.
Proof.
  cbv zeta. split.
  - apply (proj2 (breadthFirst_run w cfg (S fuel))).
    unfold captureScreenshotsForAllPages, initial. cbn [whileQueue queue].
    assert (exists more,
              log (after (loopBody w cfg (cfg_url cfg)
                            (shift (cfg_url cfg) []
                               {| queue := [cfg_url cfg]; visited := ∅;
                                  visitedCount := 0; log := [] |})))
              = Shift (cfg_url cfg) :: more) as [more Hfirst].
    { destruct (loopBody_fresh w cfg (cfg_url cfg)
                  (shift (cfg_url cfg) []
                     {| queue := [cfg_url cfg]; visited := ∅; visitedCount := 0; log := [] |}))
        as (evs & links & _ & ->); [apply not_elem_of_empty|]. cbn. eexists. reflexivity. }
    destruct (loopBody w cfg (cfg_url cfg) _) as [s'|s']; cbn [after final] in *.
    + destruct (whileQueue_log_grows fuel s') as [more' ->]. rewrite Hfirst.
      left. reflexivity.
    + rewrite Hfirst. left. reflexivity.
  - unfold captureScreenshotsForAllPages, initial. cbn [whileQueue queue].
    assert (exists ok more,
              log (after (loopBody w cfg (cfg_url cfg)
                            (shift (cfg_url cfg) []
                               {| queue := [cfg_url cfg]; visited := ∅;
                                  visitedCount := 0; log := [] |})))
              = Shift (cfg_url cfg) :: Goto (cfg_url cfg) ok :: more)
      as (ok & more & Hfirst).
    { destruct (loopBody_fresh w cfg (cfg_url cfg)
                  (shift (cfg_url cfg) []
                     {| queue := [cfg_url cfg]; visited := ∅; visitedCount := 0; log := [] |}))
        as (evs & links & Hev & ->); [apply not_elem_of_empty|]. cbn.
      destruct Hev as [-> | [(went & later & _ & ->) | (directory & _ & ->)]];
        eexists _, _; reflexivity. }
    destruct (loopBody w cfg (cfg_url cfg) _) as [s'|s']; cbn [after final] in *.
    + destruct (whileQueue_log_grows fuel s') as [more' ->]. rewrite Hfirst.
      eexists _, _. reflexivity.
    + rewrite Hfirst. eexists _, _. reflexivity.
Qed.

Lemma written_shots u directory rs :
  written (concat (map (captureOne u directory) rs)) = map (filenameIn directory) rs.
Proof.
  induction rs as [|r rs IH]; [reflexivity|]. cbn [map concat]. unfold written in *.
  rewrite omap_app, IH. unfold captureOne. destruct (widthHeight r). reflexivity.
Qed.

Lemma times_in_getlinks U l : In (GetLinks U) l -> 1 <= times Extract U l.
Proof.
  induction l as [|e l IH]; intros Hin; [destruct Hin|].
  change (e :: l) with ([e] ++ l)%list. rewrite times_app.
  destruct Hin as [->|Hin].
  - unfold times at 1. simpl. rewrite String.eqb_refl. simpl. lia.
  - specialize (IH Hin). lia.
Qed.

(** A turn of the loop on a URL not yet visited ends in one of four ways:
    the navigation fails; the capture throws; the capture returns and the
    link extraction throws; the links are extracted and checked. *)
Lemma loopBody_turn u s :
  u ∉ visited s ->
  let base := (log s ++ [Goto u true; CapturePage u])%list in
  let next q lg := {| queue := q; visited := {[u]} ∪ visited s;
                      visitedCount := S (visitedCount s); log := lg |} in
  (page_goto w (S (visitedCount s)) u = None /\
   loopBody w cfg u s = Normal (next (queue s) (log s ++ [Goto u false])%list)) \/
  (exists page went,
     page_goto w (S (visitedCount s)) u = Some page /\
     captureScreenshotsForPage w u (cfg_resolutions cfg) base = CaptureThrew went /\
     loopBody w cfg u s = Throw (next (queue s) (base ++ went)%list)) \/
  (exists page went,
     page_goto w (S (visitedCount s)) u = Some page /\
     captureScreenshotsForPage w u (cfg_resolutions cfg) base = Captured went /\
     (fails w (base ++ went)%list (GetLinks u) = true \/
      getLinksFromPage w page (cfg_domain cfg) = None) /\
     loopBody w cfg u s = Throw (next (queue s) (base ++ went ++ [GetLinks u])%list)) \/
  (exists page went links,
     page_goto w (S (visitedCount s)) u = Some page /\
     captureScreenshotsForPage w u (cfg_resolutions cfg) base = Captured went /\
     fails w (base ++ went)%list (GetLinks u) = false /\
     getLinksFromPage w page (cfg_domain cfg) = Some links /\
     loopBody w cfg u s =
       Normal (next (queue s ++ admitted cfg ({[u]} ∪ visited s) links)%list
                 (base ++ went ++ [GetLinks u]
                    ++ map Push (admitted cfg ({[u]} ∪ visited s) links))%list)).
Proof.
  intros Hu. cbv zeta. unfold loopBody. apply has_false in Hu. rewrite Hu.
  cbn [markVisited visitedCount emit log].
  destruct (page_goto w (S (visitedCount s)) u) as [page|] eqn:Hgo.
  - destruct (captureScreenshotsForPage w u (cfg_resolutions cfg) _) as [went|went] eqn:Hcap.
    + cbn [emit log]. destruct (fails w _ (GetLinks u)) eqn:Hfail.
      * right. right. left. exists page, went.
        split; [reflexivity|]. split; [first [exact Hcap | reflexivity]|]. split; [left; first [exact Hfail | reflexivity]|].
        first [reflexivity | f_equal; same_state].
      * destruct (getLinksFromPage w page (cfg_domain cfg)) as [links|] eqn:Hlinks.
        -- right. right. right. exists page, went, links.
           split; [reflexivity|]. split; [first [exact Hcap | reflexivity]|]. split; [first [exact Hfail | reflexivity]|].
           split; [exact Hlinks|]. rewrite fold_checkLink. first [reflexivity | f_equal; same_state].
        -- right. right. left. exists page, went.
           split; [reflexivity|]. split; [first [exact Hcap | reflexivity]|]. split; [right; exact Hlinks|].
           first [reflexivity | f_equal; same_state].
    + right. left. exists page, went.
      split; [reflexivity|]. split; [first [exact Hcap | reflexivity]|]. first [reflexivity | f_equal; same_state].
  - left. split; reflexivity.
Qed.

(** What holds of the first state and is kept by every turn that ends
    normally holds of the last state of a run that no exception ended, and
    of the state in which the turn that threw began. *)
Lemma whileQueue_outcome (P : state -> Prop) :
  (forall u rest s s', queue s = u :: rest -> P s ->
     loopBody w cfg u (shift u rest s) = Normal s' -> P s') ->
  forall fuel s, P s ->
  match whileQueue w cfg fuel s with
  | Done s' | OutOfFuel s' => P s'
  | Aborted s' =>
      exists u rest s0,
        P s0 /\ queue s0 = u :: rest /\ loopBody w cfg u (shift u rest s0) = Throw s'
  end.
Proof.
  intros Hstep. induction fuel as [|fuel IH]; intros s Hs; cbn [whileQueue].
  - destruct (queue s); exact Hs.
  - destruct (queue s) as [|u rest] eqn:Hq; [exact Hs|].
    destruct (loopBody w cfg u (shift u rest s)) as [s1|s1] eqn:Hbody.
    + apply IH. exact (Hstep u rest s s1 Hq Hs Hbody).
    + exists u, rest, s. repeat split; assumption.
Qed.

Lemma complete_app l1 l2 :
  complete w cfg l1 -> complete w cfg l2 -> complete w cfg (l1 ++ l2)%list.
Proof.
  intros [Hn1 Hw1] [Hn2 Hw2]. split.
  - intros U. rewrite !times_app, Hn1, Hn2. lia.
  - unfold written, captured in *. rewrite !omap_app, flat_map_app, Hw1, Hw2. reflexivity.
Qed.

Lemma complete_pushes links : complete w cfg (map Push links).
Proof.
  split.
  - intros U. rewrite !times_pushes. reflexivity.
  - induction links as [|l links IH]; [reflexivity | exact IH].
Qed.

Lemma complete_capture u directory :
  directoryFor w u = Some directory ->
  complete w cfg (captureCalls u directory (cfg_resolutions cfg) ++ [GetLinks u])%list.
Proof.
  intros Hdir. split.
  - intros U. unfold captureCalls.
    change (EnsureDir directory :: ?l) with ([EnsureDir directory] ++ l)%list.
    rewrite !times_app, !times_shots. unfold times. cbn.
    destruct (String.eqb u U); cbn; lia.
  - unfold written, captured. rewrite !omap_app.
    fold (written (captureCalls u directory (cfg_resolutions cfg))).
    rewrite (proj2 (calls_in_order u directory (cfg_resolutions cfg))).
    rewrite (omap_calls _ (captureCalls u directory (cfg_resolutions cfg)))
      by (apply calls_are_calls || (intros e He; destruct e; try discriminate He; reflexivity)).
    cbn. unfold filesOf. rewrite Hdir, !app_nil_r. reflexivity.
Qed.

Lemma complete_step u rest s s' :
  complete w cfg (log s) ->
  loopBody w cfg u (shift u rest s) = Normal s' -> complete w cfg (log s').
Proof.
  intros Hs Hbody.
  assert (complete w cfg (log s ++ [Shift u])%list) as Hshift
    by (apply complete_app; [exact Hs | split; [intros U|]; reflexivity]).
  destruct (decide (u ∈ visited s)) as [Hu|Hu].
  - rewrite loopBody_seen in Hbody by exact Hu. injection Hbody as <-.
    cbn [emit shift log]. apply complete_app; [exact Hshift|].
    split; [intros U|]; reflexivity.
  - destruct (loopBody_turn u (shift u rest s) Hu)
      as [[_ H] | [(page & went & _ & _ & H) | [(page & went & _ & _ & _ & H)
         | (page & went & links & _ & Hcap & _ & _ & H)]]];
      rewrite H in Hbody; try discriminate Hbody; injection Hbody as <-; cbn [shift log].
    + apply complete_app; [exact Hshift|]. split; [intros U|]; reflexivity.
    + apply capture_returned in Hcap. destruct Hcap as (directory & Hdir & ->).
      rewrite <- app_assoc. apply complete_app; [exact Hshift|].
      apply complete_app; [split; [intros U|]; reflexivity|].
      change (GetLinks u :: ?l) with ([GetLinks u] ++ l)%list.
      rewrite app_assoc. apply complete_app; [apply complete_capture, Hdir|].
      apply complete_pushes.
Qed.

(** The screenshots are complete page by page.  In every state a run
    reaches, a page whose links were extracted has one screenshot for each
    configured resolution.  In a run that no exception ended the files
    written are the files of the pages whose links were extracted, page
    after page in the order of the visits and, within a page, in the order
    of the resolutions.  In general the log holds, beyond that, the calls
    that went through of one capture that threw: a beginning of the calls
    of one page. *)
Theorem screenshots_complete_per_page (fuel : nat) (U : string) :
  let r := captureScreenshotsForAllPages w cfg fuel in
  let l := log (final r) in
  (In (GetLinks U) l -> times Shot U l = length (cfg_resolutions cfg)) /\
  ((forall s, r <> Aborted s) ->
   times Shot U l = times Extract U l * length (cfg_resolutions cfg) /\
   written l = flat_map (filesOf w cfg) (captured l)) /\
  exists u went later,
    plan w cfg u = (went ++ later)%list /\
    times Shot U l = times Extract U l * length (cfg_resolutions cfg) + times Shot U went /\
    written l = (flat_map (filesOf w cfg) (captured l) ++ written went)%list.
Proof.
  cbv zeta.
  pose proof (whileQueue_outcome (fun s => complete w cfg (log s))
                (fun u rest s s' _ => complete_step u rest s s') fuel (initial cfg)) as Hrun.
  fold (captureScreenshotsForAllPages w cfg fuel) in Hrun.
  assert (complete w cfg (log (initial cfg))) as Hinit
    by (split; [intros V|]; reflexivity).
  specialize (Hrun Hinit).
  assert (exists u went later,
            plan w cfg u = (went ++ later)%list /\
            (forall V,
               times Shot V (log (final (captureScreenshotsForAllPages w cfg fuel))) =
               times Extract V (log (final (captureScreenshotsForAllPages w cfg fuel)))
                 * length (cfg_resolutions cfg) + times Shot V went) /\
            written (log (final (captureScreenshotsForAllPages w cfg fuel))) =
              (flat_map (filesOf w cfg)
                 (captured (log (final (captureScreenshotsForAllPages w cfg fuel))))
                 ++ written went)%list /\
            ((forall s, captureScreenshotsForAllPages w cfg fuel <> Aborted s) -> went = []))
    as (u & went & later & Hplan & Hn & Hw & Hnone).
  { destruct (captureScreenshotsForAllPages w cfg fuel) as [s|s|s]; cbn [final].
    - destruct Hrun as [Hn Hw]. exists "", [], (plan w cfg "").
      split; [reflexivity|]. split; [intros V; rewrite Hn; cbn; lia|].
      split; [rewrite app_nil_r; exact Hw | reflexivity].
    - destruct Hrun as (u & rest & s0 & [Hn Hw] & _ & Hbody).
      assert (u ∉ visited s0) as Hu.
      { intros Hu. rewrite loopBody_seen in Hbody by exact Hu. discriminate. }
      assert (complete w cfg ((log s0 ++ [Shift u]) ++ [Goto u true; CapturePage u])%list)
        as [Hn1 Hw1].
      { apply complete_app; [apply complete_app; [split; assumption|]|];
          (split; [intros V|]; reflexivity). }
      destruct (loopBody_turn u (shift u rest s0) Hu)
        as [[_ H] | [(page & went & _ & Hcap & H) | [(page & went & _ & Hcap & _ & H)
           | (page & went & links & _ & _ & _ & _ & H)]]];
        rewrite H in Hbody; try discriminate Hbody; injection Hbody as <-; cbn [shift log].
      + assert (exists later, plan w cfg u = (went ++ later)%list) as [later Hplan].
        { apply capture_threw in Hcap. unfold plan.
          destruct Hcap as [[-> ->] | (directory & op & more & -> & -> & _)];
            eexists; reflexivity. }
        pose proof (plan_calls w cfg u) as Hcalls. rewrite Hplan in Hcalls.
        apply Forall_app in Hcalls. destruct Hcalls as [Hwent _].
        exists u, went, later. split; [exact Hplan|]. split; [|split].
        * intros V. rewrite (times_app Shot), (times_app Extract), Hn1.
          rewrite (times_calls Extract V went Hwent). lia.
        * unfold written, captured in *. rewrite (omap_app _ _ went), Hw1.
          rewrite (omap_app _ _ went).
          rewrite (omap_calls (fun e => match e with GetLinks x => Some x | _ => None end) went)
            by (exact Hwent || (intros e He; destruct e; try discriminate He; reflexivity)).
          rewrite app_nil_r. reflexivity.
        * intros Hnot. destruct (Hnot _ eq_refl).
      + apply capture_returned in Hcap. destruct Hcap as (directory & Hdir & ->).
        assert (complete w cfg
                  (((log s0 ++ [Shift u]) ++ [Goto u true; CapturePage u])
                     ++ captureCalls u directory (cfg_resolutions cfg) ++ [GetLinks u])%list)
          as [Hn2 Hw2].
        { apply complete_app; [split; assumption | apply complete_capture, Hdir]. }
        exists u, [], (plan w cfg u).
        split; [reflexivity|]. split; [intros V; rewrite Hn2; cbn; lia|].
        split; [rewrite app_nil_r; exact Hw2|]. intros Hnot. destruct (Hnot _ eq_refl).
    - destruct Hrun as [Hn Hw]. exists "", [], (plan w cfg "").
      split; [reflexivity|]. split; [intros V; rewrite Hn; cbn; lia|].
      split; [rewrite app_nil_r; exact Hw | reflexivity]. }
  split; [|split].
  - intros Hin. pose proof (times_in_getlinks _ _ Hin) as Hge.
    destruct (tidy_run w cfg fuel U Extract) as (Hle & _).
    destruct (tidy_run w cfg fuel U Shot) as (Hle' & _). cbn in Hle, Hle'.
    specialize (Hn U).
    assert (times Extract U (log (final (captureScreenshotsForAllPages w cfg fuel))) = 1)
      as Hone by lia.
    rewrite Hone in Hn. lia.
  - intros Hnot. rewrite (Hnone Hnot) in Hn, Hw. split.
    + rewrite (Hn U). cbn. lia.
    + rewrite Hw. apply app_nil_r.
  - exists u, went, later. split; [exact Hplan|]. split; [apply Hn | exact Hw].
Qed.

Lemma whileQueue_aborted fuel s s' :
  whileQueue w cfg fuel s = Aborted s' ->
  exists u rest s0, loopBody w cfg u (shift u rest s0) = Throw s'.
Proof.
  revert s. induction fuel as [|fuel IH]; intros s; cbn [whileQueue].
  - destruct (queue s); discriminate.
  - destruct (queue s) as [|u rest]; [discriminate|].
    destruct (loopBody w cfg u (shift u rest s)) as [s1|s1] eqn:Hbody.
    + apply IH.
    + intros [= <-]. exists u, rest, s. exact Hbody.
Qed.

(** A run that is ended by an exception was ended on a page that had
    loaded, the last one navigated to, which is in [visited].  Either the
    capture threw: [path.join] on a URL without segments, with nothing done
    for the page, or one of the calls of the capture, after the calls
    before it went through, and the log ends with these.  Or the link
    extraction threw, and the log ends with the screenshots of the page,
    all taken and written, and the call of the extraction. *)
Theorem aborted_run_shape (fuel : nat) (s : state) :
  captureScreenshotsForAllPages w cfg fuel = Aborted s ->
  exists u page before,
    u ∈ visited s /\ page_goto w (visitedCount s) u = Some page /\
    ((exists went,
        captureScreenshotsForPage w u (cfg_resolutions cfg)
          (before ++ [Goto u true; CapturePage u])%list = CaptureThrew went /\
        log s = (before ++ [Goto u true; CapturePage u] ++ went)%list /\
        ((directoryFor w u = None /\ went = []) \/
         exists directory op rest,
           directoryFor w u = Some directory /\
           captureCalls u directory (cfg_resolutions cfg) = (went ++ op :: rest)%list /\
           fails w (before ++ [Goto u true; CapturePage u] ++ went)%list op = true)) \/
     (exists went,
        captureScreenshotsForPage w u (cfg_resolutions cfg)
          (before ++ [Goto u true; CapturePage u])%list = Captured went /\
        (fails w (before ++ [Goto u true; CapturePage u] ++ went)%list (GetLinks u) = true \/
         getLinksFromPage w page (cfg_domain cfg) = None) /\
        written went = filesOf w cfg u /\
        log s = (before ++ [Goto u true; CapturePage u] ++ went ++ [GetLinks u])%list)).
Proof.
  intros Hrun. apply whileQueue_aborted in Hrun. destruct Hrun as (u & rest & s0 & Hbody).
  pose proof (loopBody_marks w cfg u (shift u rest s0)) as Hmark.
  rewrite Hbody in Hmark. cbn [after] in Hmark.
  assert (u ∉ visited s0) as Hu.
  { intros Hu. rewrite loopBody_seen in Hbody by exact Hu. discriminate. }
  destruct (loopBody_turn u (shift u rest s0) Hu)
    as [[_ H] | [(page & went & Hgo & Hcap & H) | [(page & went & Hgo & Hcap & Hwhy & H)
       | (page & went & links & _ & _ & _ & _ & H)]]];
    rewrite H in Hbody; try discriminate Hbody; injection Hbody as <-;
    cbn [shift log visited visitedCount] in *;
    exists u, page, (log s0 ++ [Shift u])%list;
    (split; [exact Hmark|]); (split; [exact Hgo|]).
  - left. exists went. split; [exact Hcap|]. split; [symmetry; apply app_assoc|].
    apply capture_threw in Hcap.
    destruct Hcap as [Hnone | (directory & op & more & Hdir & Hcalls & Hf)]; [left; exact Hnone|].
    right. exists directory, op, more. split; [exact Hdir|]. split; [exact Hcalls|].
    rewrite <- app_assoc in Hf. exact Hf.
  - right. exists went. split; [exact Hcap|]. split.
    { rewrite <- app_assoc in Hwhy. exact Hwhy. }
    split; [|symmetry; apply app_assoc].
    apply capture_returned in Hcap. destruct Hcap as (directory & Hdir & ->).
    unfold filesOf. rewrite Hdir. apply calls_in_order.
Qed.

Lemma loopBody_within (reach : list string) u s :
  closed w cfg reach ->
  In u (cfg_url cfg :: reach) ->
  (forall v, In v (queue s) -> In v (cfg_url cfg :: reach)) ->
  (forall v, v ∈ visited s -> In v (cfg_url cfg :: reach)) ->
  (forall v, In v (queue (after (loopBody w cfg u s))) -> In v (cfg_url cfg :: reach)) /\
  (forall v, v ∈ visited (after (loopBody w cfg u s)) -> In v (cfg_url cfg :: reach)).
Proof.
  intros Hclosed Hu Hq Hv.
  assert (forall v, v ∈ {[u]} ∪ visited s -> In v (cfg_url cfg :: reach)) as Hv'.
  { intros v Hin. apply elem_of_union in Hin. destruct Hin as [Hin|Hin]; [|exact (Hv v Hin)].
    apply elem_of_singleton in Hin. subst v. exact Hu. }
  destruct (decide (u ∈ visited s)) as [Hseen|Hnew].
  - rewrite loopBody_seen by exact Hseen. split; assumption.
  - destruct (loopBody_turn u s Hnew)
      as [[_ ->] | [(page & went & _ & _ & ->) | [(page & went & _ & _ & _ & ->)
         | (page & went & links & Hgo & _ & _ & Hlinks & ->)]]];
      cbn [after queue visited]; try (split; assumption).
    split; [|exact Hv'].
    intros v Hin. apply in_app_or in Hin. destruct Hin as [Hin|Hin]; [exact (Hq v Hin)|].
    apply filter_In in Hin. destruct Hin as [Hin Hok].
    apply andb_true_iff in Hok. destruct Hok as [_ Hpre].
    right. exact (Hclosed _ _ _ _ _ Hgo Hlinks Hin Hpre).
Qed.

(** When the links the pages can hand to the queue all lie in a finite
    list, a run never visits or queues anything but the seed and the URLs
    of the list, and navigates to at most one page more than the list is
    long. *)
Theorem visits_bounded_by_reachable (reach : list string) (fuel : nat) :
  closed w cfg reach ->
  let s := final (captureScreenshotsForAllPages w cfg fuel) in
  (forall v, v ∈ visited s -> In v (cfg_url cfg :: reach)) /\
  (forall v, In v (queue s) -> In v (cfg_url cfg :: reach)) /\
  visitedCount s <= S (length reach) /\
  length (navigated (log s)) <= S (length reach).
Proof.
  intros Hclosed. cbv zeta.
  assert ((forall v, In v (queue (final (captureScreenshotsForAllPages w cfg fuel))) ->
                     In v (cfg_url cfg :: reach)) /\
          (forall v, v ∈ visited (final (captureScreenshotsForAllPages w cfg fuel)) ->
                     In v (cfg_url cfg :: reach))) as [Hq Hv].
  { unfold captureScreenshotsForAllPages.
    apply (whileQueue_invariant w cfg
             (fun s => (forall v, In v (queue s) -> In v (cfg_url cfg :: reach)) /\
                       (forall v, v ∈ visited s -> In v (cfg_url cfg :: reach)))).
    - intros u rest s Hqs [Hq Hv]. apply loopBody_within; try assumption.
      + apply Hq. rewrite Hqs. left. reflexivity.
      + intros v Hin. apply Hq. rewrite Hqs. right. exact Hin.
    - split.
      + intros v [<-|[]]. left. reflexivity.
      + intros v Hin. apply not_elem_of_empty in Hin. destruct Hin. }
  destruct (counted_run fuel) as (Hsize & Hnav & _).
  assert (size (visited (final (captureScreenshotsForAllPages w cfg fuel)))
          <= S (length reach)) as Hbound.
  { etransitivity; [|apply (size_list_to_set_le (cfg_url cfg :: reach))].
    apply subseteq_size. intros v Hin. apply elem_of_list_to_set, list_elem_of_In, Hv, Hin. }
  split; [exact Hv|]. split; [exact Hq|]. split; lia.
Qed.


End RunFacts.

(** ** Paths that leave the directory of the host *)
Section EscapeFacts.

Lemma split_join_pieces comps :
  comps <> [] -> Forall (fun c => JS.has_char "/" c = false) comps ->
  JS.split "/" (JS.join "/" comps) = comps.
Proof.
  intros Hne Hall. induction Hall as [|x comps Hx Hall IH]; [congruence|].
  destruct comps as [|y comps].
  - apply split_nosep, Hx.
  - rewrite join_cons. change ("/" ++ JS.join "/" (y :: comps))
      with (String "/" (JS.join "/" (y :: comps))).
    rewrite split_sep by exact Hx. rewrite IH by discriminate. reflexivity.
Qed.



Lemma ordinary_no_slash comps :
  forallb ordinary comps = true -> Forall (fun c => JS.has_char "/" c = false) comps.
Proof.
  intros Hall. apply Forall_forall. intros c Hc. rewrite forallb_forall in Hall.
  apply list_elem_of_In in Hc. specialize (Hall c Hc). apply ordinary_spec in Hall. tauto.
Qed.


End EscapeFacts.


(** ** The shape of every output path *)
Section ShapeFacts.

Lemma push_ordinary segs acc :
  Forall (fun c => JS.has_char "/" c = false) segs ->
  forallb ordinary acc = true ->
  forallb ordinary (fold_left (Path.push_component false) segs acc) = true.
Proof.
  intros Hsegs. revert acc. induction Hsegs as [|seg segs Hseg _ IH]; intros acc Hacc;
    [exact Hacc|].
  cbn [fold_left]. apply IH. unfold Path.push_component.
  destruct (String.eqb_spec seg "") as [|H0]; [exact Hacc|].
  destruct (String.eqb_spec seg ".") as [|H1]; [exact Hacc|]. cbn [orb].
  destruct (String.eqb_spec seg "..") as [|H2].
  - destruct acc as [|top below]; [reflexivity|].
    destruct (String.eqb top ".."); [exact Hacc|].
    cbn [forallb] in Hacc. apply andb_true_iff in Hacc. tauto.
  - cbn [forallb]. rewrite Hacc, andb_true_r. apply ordinary_spec. tauto.
Qed.

Lemma forallb_rev (f : string -> bool) l : forallb f (rev l) = true <-> forallb f l = true.
Proof.
  rewrite !forallb_forall. split; intros H x Hx; apply H.
  - apply in_rev in Hx. exact Hx.
  - apply in_rev. exact Hx.
Qed.

Lemma normalize_absolute p :
  Path.isAbsolute p = true -> Path.trailingSeparator p = false ->
  exists comps, forallb ordinary comps = true /\
                Path.normalize p = "/" ++ JS.join "/" comps.
Proof.
  intros Habs Htrail.
  exists (Path.normalizeString (JS.split "/" p) false). split.
  - unfold Path.normalizeString. apply forallb_rev, push_ordinary; [|reflexivity].
    apply split_pieces.
  - unfold Path.normalize. rewrite Habs, Htrail. cbn [negb].
    destruct p as [|c p]; [discriminate Habs|]. cbn [String.eqb].
    destruct (String.eqb_spec (JS.join "/" (Path.normalizeString (JS.split "/" (String c p)) false)) "")
      as [->|_]; reflexivity.
Qed.

Lemma trailing_join_parts x parts :
  parts <> [] ->
  Forall (fun c => c <> "" /\ JS.has_char "/" c = false) parts ->
  Path.trailingSeparator (JS.join "/" (x :: parts)) = false.
Proof.
  intros Hne Hall. revert x. induction Hall as [|y parts [Hy0 Hy] Hall IH]; intros x;
    [congruence|].
  rewrite join_cons.
  assert (JS.join "/" (y :: parts) <> "") as Hj by (apply join_not_empty, Hy0).
  rewrite trailing_append.
  2:{ change ("/" ++ JS.join "/" (y :: parts)) with (String "/" (JS.join "/" (y :: parts))).
      discriminate. }
  rewrite trailing_append by exact Hj.
  destruct parts as [|z parts]; [apply trailing_nosep, Hy|].
  apply IH. discriminate.
Qed.

Lemma join_root_file f :
  ordinary f = true -> Path.join ["/"; f] = "/" ++ f.
Proof.
  intros Hf. apply ordinary_spec in Hf. destruct Hf as (H0 & H1 & H2 & H3).
  unfold Path.join. rewrite filter_nonempty by (repeat constructor; [discriminate | exact H0]).
  cbn [JS.join]. unfold Path.normalize.
  change ("/" ++ "/" ++ f) with (String "/" (String "/" f)).
  cbn [String.eqb Path.isAbsolute JS.split negb]. rewrite !Ascii.eqb_refl.
  rewrite split_nosep by exact H3. cbn [negb].
  unfold Path.normalizeString. cbn [fold_left].
  change (Path.push_component false [] "") with (@nil string).
  change (Path.push_component false [] "") with (@nil string).
  unfold Path.push_component. apply String.eqb_neq in H0, H1, H2.
  rewrite H0, H1, H2. cbn [orb rev app JS.join]. rewrite H0.
  change (String "/" (String "/" f)) with ("//" ++ f).
  rewrite trailing_append by (apply String.eqb_neq, H0).
  rewrite trailing_nosep by exact H3. reflexivity.
Qed.

Lemma paths_normalized (w : World) (url directory : string) :
  Path.isAbsolute (dirname w) = true ->
  directoryFor w url = Some directory ->
  exists comps,
    forallb ordinary comps = true /\
    directory = "/" ++ JS.join "/" comps /\
    forall resolution,
      JS.has_char "/" resolution = false ->
      filenameFor w url resolution =
        Some ("/" ++ JS.join "/" (app comps [resolution ++ ".png"])).
Proof.
  intros Habs Hdir. unfold directoryFor in Hdir.
  destruct (segments url) as [|hostname rest] eqn:Hseg; [discriminate|].
  injection Hdir as Hdir.
  assert (hostname <> "" /\ JS.has_char "/" hostname = false) as [Hh0 Hh].
  { assert (In hostname (segments url)) as Hin by (rewrite Hseg; left; reflexivity).
    rewrite segments_pieces in Hin. apply filter_In in Hin. destruct Hin as [Hin Hok].
    apply andb_true_iff in Hok. destruct Hok as [He _].
    apply negb_true_iff, String.eqb_neq in He. split; [exact He|].
    pose proof (split_pieces "/" url) as Hp. rewrite Forall_forall in Hp.
    apply Hp, list_elem_of_In, Hin. }
  assert (dirname w <> "") as Hd0 by (destruct (dirname w); [discriminate Habs | discriminate]).
  assert (exists comps, forallb ordinary comps = true /\
                        directory = "/" ++ JS.join "/" comps) as (comps & Hord & Hshape).
  { rewrite <- Hdir. unfold Path.join, safeSegments. cbn [tail].
    rewrite filter_cons_True by exact Hd0.
    rewrite filter_cons_True by discriminate.
    rewrite filter_cons_True by exact Hh0.
    apply normalize_absolute.
    - rewrite join_cons. destruct (dirname w); [discriminate Habs | exact Habs].
    - apply trailing_join_parts; [discriminate|].
      constructor; [split; [discriminate | reflexivity]|].
      constructor; [split; assumption|].
      apply Forall_forall. intros c Hc. apply list_elem_of_filter in Hc.
      destruct Hc as [Hc0 Hc]. split; [exact Hc0|].
      apply list_elem_of_In, in_map_iff in Hc. destruct Hc as [raw [<- _]].
      rewrite has_char_strip. apply andb_false_r. }
  exists comps. split; [exact Hord|]. split; [exact Hshape|].
  intros resolution Hres. unfold filenameFor, directoryFor. rewrite Hseg, Hdir. f_equal.
  unfold filenameIn. rewrite Hshape.
  pose proof (ordinary_png resolution Hres) as Hpng.
  destruct comps as [|c comps].
  - cbn [JS.join app]. rewrite append_nil_r. apply join_root_file, Hpng.
  - destruct (join_clean (c :: comps) [resolution ++ ".png"]) as [_ ->];
      [discriminate | discriminate | | reflexivity].
    rewrite forallb_app, Hord. cbn [forallb]. rewrite Hpng. reflexivity.
Qed.

(** Whatever the URL, when [__dirname] is an absolute path the directory of
    the screenshots is a normalized absolute path, a slash followed by
    components none of which is empty, [.] or [..], and the file of a
    resolution without a slash is that directory with one component more,
    the resolution followed by [.png]. *)
Theorem output_paths_are_normalized (w : World) (url directory : string) :
  Path.isAbsolute (dirname w) = true ->
  directoryFor w url = Some directory ->
  exists comps,
    forallb ordinary comps = true /\
    directory = "/" ++ JS.join "/" comps /\
    forall resolution,
      JS.has_char "/" resolution = false ->
      filenameFor w url resolution =
        Some ("/" ++ JS.join "/" (app comps [resolution ++ ".png"])).
Proof. exact (paths_normalized w url directory). Qed.

(** C8, as the script has it.  The path of a screenshot is
    [path.join(__dirname, images, hostname, ...sanitized segments)] joined
    with the resolution and [.png]: the segments are the non-empty pieces
    of the URL between slashes other than [https:], the first is the host
    name, the others lose the characters of the class.  When [__dirname] is
    a clean absolute path of at least one component, this is the plain
    concatenation rootDir/images/hostname/segments/WxH.png if, and only if,
    neither the host name nor a sanitized segment is empty, [.] or [..].
    The path depends on the URL, the resolution and [__dirname] and on
    nothing else. *)
Theorem output_path_of_url (w : World) (dirs : list string)
    (url hostname : string) (rest : list string) (width height : nat) :
  dirname w = "/" ++ JS.join "/" dirs -> dirs <> [] -> forallb ordinary dirs = true ->
  segments url = hostname :: rest ->
  let resolution := resolutionString width height in
  ((forall seg, In seg (hostname :: map (JS.strip unsafe_char) rest) ->
                seg <> "" /\ seg <> "." /\ seg <> "..") <->
   filenameFor w url resolution = specPath (dirname w) url resolution) /\
  (forallb ordinary (hostname :: map (JS.strip unsafe_char) rest) = true ->
   filenameFor w url resolution =
     Some (JS.join "/"
             (dirname w :: "images" :: hostname ::
                app (map (JS.strip unsafe_char) rest) [resolution ++ ".png"]))) /\
  filenameFor w url resolution =
    Some (Path.join
            [Path.join (dirname w :: "images" :: hostname :: map (JS.strip unsafe_char) rest);
             resolution ++ ".png"]) /\
  (forall seg, In seg (segments url) <->
               In seg (JS.split "/" url) /\ seg <> "" /\ seg <> "https:") /\
  JS.join "/" (JS.split "/" url) = url /\
  (forall seg c, In seg (map (JS.strip unsafe_char) rest) ->
                 unsafe_char c = true -> JS.has_char c seg = false) /\
  (forall seg, list_ascii_of_string (JS.strip unsafe_char seg) =
               List.filter (fun c => negb (unsafe_char c)) (list_ascii_of_string seg)) /\
  (forall w', dirname w' = dirname w ->
              filenameFor w' url resolution = filenameFor w url resolution).
Proof.
  intros Hdir Hdirs Hclean Hsegs resolution.
  assert (filenameFor w url resolution =
          Some (Path.join
                  [Path.join (dirname w :: "images" :: hostname ::
                                map (JS.strip unsafe_char) rest);
                   resolution ++ ".png"])) as Hjoin.
  { unfold filenameFor, directoryFor. rewrite Hsegs. reflexivity. }
  assert (JS.has_char "/" hostname = false) as Hhost.
  { assert (In hostname (segments url)) as Hin by (rewrite Hsegs; left; reflexivity).
    rewrite segments_pieces in Hin. apply filter_In in Hin. destruct Hin as [Hin _].
    pose proof (split_pieces "/" url) as Hp. rewrite Forall_forall in Hp.
    apply Hp, list_elem_of_In, Hin. }
  assert (Forall (fun c => JS.has_char "/" c = false) (map (JS.strip unsafe_char) rest))
    as Hsafe.
  { apply Forall_forall. intros c Hc. apply list_elem_of_In, in_map_iff in Hc.
    destruct Hc as [raw [<- _]]. rewrite has_char_strip. apply andb_false_r. }
  pose proof (resolutionString_no_slash width height) as Hres. fold resolution in Hres.
  assert (forallb ordinary (hostname :: map (JS.strip unsafe_char) rest) = true <->
          forall seg, In seg (hostname :: map (JS.strip unsafe_char) rest) ->
                      seg <> "" /\ seg <> "." /\ seg <> "..") as Hplain.
  { rewrite forallb_forall. split; intros Hall seg Hin; specialize (Hall seg Hin).
    - apply ordinary_spec in Hall. tauto.
    - apply ordinary_spec. destruct Hall as (H0 & H1 & H2).
      repeat (split; [assumption|]). destruct Hin as [<-|Hin]; [exact Hhost|].
      rewrite Forall_forall in Hsafe. apply Hsafe, list_elem_of_In, Hin. }
  split; [split|].
  - intros Hord. apply Hplain in Hord.
    exact (proj1 (proj2 (path_of_ordinary_segments w dirs url hostname rest width height
                           Hdir Hdirs Hclean Hsegs Hord))).
  - intros Hsame. apply Hplain.
    destruct (paths_normalized w url
                (Path.join (dirname w :: "images" :: hostname ::
                              map (JS.strip unsafe_char) rest)))
      as (comps & Hord & _ & Hfile).
    { rewrite Hdir. reflexivity. }
    { unfold directoryFor. rewrite Hsegs. reflexivity. }
    rewrite (Hfile resolution Hres) in Hsame. unfold specPath in Hsame.
    rewrite Hsegs in Hsame. unfold safeSegments in Hsame. cbn [tail] in Hsame.
    rewrite Hdir, join_rooted in Hsame by (assumption || discriminate).
    injection Hsame as Hsame. rewrite !append_nil in Hsame.
    apply (f_equal (JS.split "/")) in Hsame.
    rewrite !split_join_pieces in Hsame.
    + assert (forallb ordinary
                (dirs ++ "images" :: hostname ::
                   app (map (JS.strip unsafe_char) rest) [resolution ++ ".png"]) = true) as Hall.
      { rewrite <- Hsame, forallb_app, Hord. cbn [forallb].
        rewrite ordinary_png by exact Hres. reflexivity. }
      rewrite forallb_app in Hall. apply andb_true_iff in Hall. destruct Hall as [_ Hall].
      cbn [forallb] in Hall. apply andb_true_iff in Hall. destruct Hall as [_ Hall].
      apply andb_true_iff in Hall. destruct Hall as [Hh Hall].
      rewrite forallb_app in Hall. apply andb_true_iff in Hall. destruct Hall as [Hs _].
      cbn [forallb]. rewrite Hh, Hs. reflexivity.
    + destruct dirs; [congruence | discriminate].
    + apply Forall_app. split; [apply ordinary_no_slash, Hclean|].
      constructor; [reflexivity|]. constructor; [exact Hhost|].
      apply Forall_app. split; [exact Hsafe|].
      constructor; [|constructor]. rewrite has_char_append, Hres. reflexivity.
    + destruct comps; discriminate.
    + apply Forall_app. split; [apply ordinary_no_slash, Hord|].
      constructor; [|constructor]. rewrite has_char_append, Hres. reflexivity.
  - split.
    { intros Hord.
      exact (proj1 (path_of_ordinary_segments w dirs url hostname rest width height
                      Hdir Hdirs Hclean Hsegs Hord)). }
    split; [exact Hjoin|].
    split.
    { intros seg. unfold segments. rewrite filter_In, andb_true_iff, !negb_true_iff,
        !String.eqb_neq. reflexivity. }
    split; [apply join_split|].
    split.
    { intros seg c Hin Hc. apply in_map_iff in Hin. destruct Hin as [raw [<- _]].
      rewrite has_char_strip, Hc. apply andb_false_r. }
    split; [apply strip_filter|].
    intros w' Hw'. unfold filenameFor, directoryFor. rewrite Hw'. reflexivity.
Qed.

End ShapeFacts.

Lemma output_path_of_url_witness :
  dirname Demo.world = "/" ++ JS.join "/" ["work"] /\
  segments "https://example.com/a/b?x" = ["example.com"; "a"; "b?x"] /\
  filenameFor Demo.world "https://example.com/a/b?x" "800x600"
    = Some "/work/images/example.com/a/bx/800x600.png".
Proof.
  split; [reflexivity|]. split; [reflexivity|].
  exact (proj1 (proj2 (output_path_of_url Demo.world ["work"] "https://example.com/a/b?x"
                         "example.com" ["a"; "b?x"] 800 600
                         eq_refl ltac:(discriminate) eq_refl eq_refl)) eq_refl).
Defined.

Lemma output_paths_are_normalized_witness :
  Path.isAbsolute (dirname Demo.world) = true /\
  directoryFor Demo.world "https://example.com/a/./b//../c?x"
    = Some "/work/images/example.com/a/cx" /\
  exists comps,
    forallb ordinary comps = true /\
    "/work/images/example.com/a/cx" = "/" ++ JS.join "/" comps /\
    forall resolution,
      JS.has_char "/" resolution = false ->
      filenameFor Demo.world "https://example.com/a/./b//../c?x" resolution =
        Some ("/" ++ JS.join "/" (app comps [resolution ++ ".png"])).
Proof.
  split; [reflexivity|]. split; [reflexivity|].
  exact (output_paths_are_normalized Demo.world "https://example.com/a/./b//../c?x"
           "/work/images/example.com/a/cx" eq_refl eq_refl).
Defined.

(** ** Where the queued links come from *)
Section Provenance.

Context (w : World) (cfg : Config).

Lemma foundOn_more l more link :
  foundOn w cfg l link -> foundOn w cfg (l ++ more)%list link.
Proof.
  intros (u & page & h & x & before & after & -> & Hgo & Hin & Hrest).
  exists u, page, h, x, before, (after ++ more)%list.
  split; [rewrite <- app_assoc; reflexivity|]. split; [exact Hgo|].
  split; [apply in_or_app; left; exact Hin | exact Hrest].
Qed.

Lemma no_push_in_calls l link :
  Forall (fun e => isCall e = true) l -> ~ In (Push link) l.
Proof.
  intros Hall Hin. rewrite Forall_forall in Hall.
  apply list_elem_of_In, Hall in Hin. discriminate.
Qed.

Lemma went_calls url resolutions done went :
  captureScreenshotsForPage w url resolutions done = Captured went \/
  captureScreenshotsForPage w url resolutions done = CaptureThrew went ->
  Forall (fun e => isCall e = true) went.
Proof.
  intros [Hcap|Hcap].
  - apply capture_returned in Hcap. destruct Hcap as (directory & _ & ->).
    apply calls_are_calls.
  - apply capture_threw in Hcap.
    destruct Hcap as [[_ ->] | (directory & op & rest & _ & Hcalls & _)]; [constructor|].
    pose proof (calls_are_calls url directory resolutions) as Hall.
    rewrite Hcalls in Hall. apply Forall_app in Hall. tauto.
Qed.

Lemma count_step u rest s :
  visitedCount s = length (navigated (log s)) ->
  visitedCount (after (loopBody w cfg u (shift u rest s))) =
  length (navigated (log (after (loopBody w cfg u (shift u rest s))))).
Proof.
  intros Hcnt. destruct (decide (u ∈ visited s)) as [Hu|Hu].
  - rewrite loopBody_seen by exact Hu. cbn [after emit shift log visitedCount].
    unfold navigated in *. rewrite !omap_app. cbn. rewrite !app_nil_r. exact Hcnt.
  - destruct (loopBody_fresh w cfg u (shift u rest s) Hu) as (evs & links & Hev & ->).
    destruct (visit_quiet w cfg u evs Hev) as (_ & _ & Hna).
    cbn [shift log visitedCount]. unfold navigated in *.
    rewrite !omap_app, Hna, !length_app.
    fold (navigated (map Push (admitted cfg ({[u]} ∪ visited s) links))).
    rewrite navigated_pushes. cbn. lia.
Qed.

Lemma origin_step u rest s link :
  visitedCount s = length (navigated (log s)) ->
  (In (Push link) (log s) -> foundOn w cfg (log s) link) ->
  In (Push link) (log (after (loopBody w cfg u (shift u rest s)))) ->
  foundOn w cfg (log (after (loopBody w cfg u (shift u rest s)))) link.
Proof.
  intros Hcnt IH.
  assert (forall more, In (Push link) ((log s ++ [Shift u]) ++ more)%list ->
            ~ In (Push link) more ->
            foundOn w cfg ((log s ++ [Shift u]) ++ more)%list link) as Hold.
  { intros more Hin Hnot. rewrite <- app_assoc. apply foundOn_more, IH.
    apply in_app_or in Hin. destruct Hin as [Hin|Hin]; [|contradiction].
    apply in_app_or in Hin. destruct Hin as [Hin|[H|[]]]; [exact Hin | discriminate]. }
  destruct (decide (u ∈ visited s)) as [Hu|Hu].
  - rewrite loopBody_seen by exact Hu. cbn [after emit shift log].
    intros Hin. apply Hold; [exact Hin|]. intros [H|[]]. discriminate.
  - destruct (loopBody_turn w cfg u (shift u rest s) Hu)
      as [[_ ->] | [(page & went & _ & Hcap & ->) | [(page & went & _ & Hcap & _ & ->)
         | (page & went & links & Hgo & Hcap & _ & Hlinks & ->)]]];
      cbn [after shift log visited visitedCount] in *; intros Hin.
    + apply Hold; [exact Hin|]. intros [H|[]]. discriminate.
    + rewrite <- app_assoc in *. apply Hold; [exact Hin|].
      intros Hw; simpl in Hw; destruct Hw as [H|[H|Hw]]; [discriminate ..|].
      exact (no_push_in_calls went link (went_calls _ _ _ _ (or_intror Hcap)) Hw).
    + rewrite <- app_assoc in *. apply Hold; [exact Hin|].
      intros Hw; simpl in Hw; destruct Hw as [H|[H|Hw]]; [discriminate ..|].
      apply in_app_or in Hw. destruct Hw as [Hw|[H|[]]]; [|discriminate].
      exact (no_push_in_calls went link (went_calls _ _ _ _ (or_introl Hcap)) Hw).
    + destruct (in_dec string_dec link (admitted cfg ({[u]} ∪ visited s) links)) as [Hadm|Hadm].
      * assert (In link links) as Hl by (apply filter_In in Hadm; tauto).
        destruct (getLinksFromPage_origin w page _ links link Hlinks Hl) as (a & Ha & Hc).
        destruct (checkAnchor_pushed w _ _ _ _ Hc) as (h & x & -> & Hok & Hx & Hd & Hlk).
        exists u, page, h, x, (log s ++ [Shift u])%list,
          (CapturePage u :: went ++ [GetLinks u]
             ++ map Push (admitted cfg ({[u]} ∪ visited s) links))%list.
        split; [rewrite <- app_assoc; reflexivity|]. split.
        { unfold navigated in *. rewrite omap_app. cbn. rewrite app_nil_r, <- Hcnt.
          exact Hgo. }
        split.
        { right. apply in_or_app. right. right. apply in_map. exact Hadm. }
        repeat split; assumption.
      * rewrite <- app_assoc in *. apply Hold; [exact Hin|].
        intros Hw; simpl in Hw; destruct Hw as [H|[H|Hw]]; [discriminate ..|].
        apply in_app_or in Hw. destruct Hw as [Hw|[H|Hw]]; [|discriminate|].
        -- exact (no_push_in_calls went link (went_calls _ _ _ _ (or_introl Hcap)) Hw).
        -- apply Hadm. apply in_map_iff in Hw. destruct Hw as (l' & [= ->] & Hl'). exact Hl'.
Qed.

Lemma found_run (fuel : nat) (link : string) :
  In (Push link) (log (final (captureScreenshotsForAllPages w cfg fuel))) ->
  foundOn w cfg (log (final (captureScreenshotsForAllPages w cfg fuel))) link.
Proof.
  unfold captureScreenshotsForAllPages.
  apply (whileQueue_invariant w cfg
           (fun s => visitedCount s = length (navigated (log s)) /\
                     (In (Push link) (log s) -> foundOn w cfg (log s) link))).
  - intros u rest s _ [Hcnt IH]. split; [apply count_step, Hcnt|].
    apply origin_step; assumption.
  - split; [reflexivity | intros []].
Qed.

(** Every link a run ever put in the queue was found on a page the run had
    loaded: the log holds the navigation to that page, which loaded, and
    after it the push of the link.  The page has an anchor that passed the
    word filter and whose [href] resolves, against the address of the page,
    to the configured host name; the link is that [href], or what it
    resolves to when it has no [://] in it. *)
Theorem queued_links_come_from_domain_anchors (fuel : nat) (link : string) :
  In (Push link) (log (final (captureScreenshotsForAllPages w cfg fuel))) ->
  exists u page h x before after,
    log (final (captureScreenshotsForAllPages w cfg fuel))
      = (before ++ Goto u true :: after)%list /\
    page_goto w (S (length (navigated before))) u = Some page /\
    In (Push link) after /\
    In (Some h) (anchors page) /\ ~ rejectedHref (Some h) /\
    newURL w h (location_href page) = Some x /\
    url_hostname x = cfg_domain cfg /\
    link = (if JS.includes h "://" then h else url_href x).
Proof. exact (found_run fuel link). Qed.

End Provenance.

Lemma queued_links_come_from_domain_anchors_witness :
  let l := log (final (captureScreenshotsForAllPages Demo.world Demo.cfg 1)) in
  In (Push "https://example.com/a") l /\
  exists u page h x before after,
    l = (before ++ Goto u true :: after)%list /\
    page_goto Demo.world (S (length (navigated before))) u = Some page /\
    In (Push "https://example.com/a") after /\
    In (Some h) (anchors page) /\ ~ rejectedHref (Some h) /\
    newURL Demo.world h (location_href page) = Some x /\
    url_hostname x = cfg_domain Demo.cfg /\
    "https://example.com/a" = (if JS.includes h "://" then h else url_href x).
Proof.
  cbv zeta.
  assert (In (Push "https://example.com/a")
            (log (final (captureScreenshotsForAllPages Demo.world Demo.cfg 1)))) as Hin.
  { vm_compute. tauto. }
  split; [exact Hin|].
  exact (queued_links_come_from_domain_anchors Demo.world Demo.cfg 1 _ Hin).
Defined.

(** ** The further properties on the small site *)




Lemma visits_bounded_by_reachable_witness :
  closed Demo.world Demo.cfg ["https://example.com/a"; "https://example.com/b"] /\
  visitedCount (final (captureScreenshotsForAllPages Demo.world Demo.cfg 10)) <= 3.
Proof.
  split; [exact demo_closed|].
  exact (proj1 (proj2 (proj2 (visits_bounded_by_reachable Demo.world Demo.cfg _ 10
                                demo_closed)))).
Defined.

Lemma visited_under_seed_witness :
  "https://example.com/b" ∈
    visited (final (captureScreenshotsForAllPages Demo.world Demo.cfg 10)) /\
  exists t, "https://example.com/b" = cfg_url Demo.cfg ++ t.
Proof.
  assert ("https://example.com/b" ∈
            visited (final (captureScreenshotsForAllPages Demo.world Demo.cfg 10))) as Hin.
  { apply has_true. vm_compute. reflexivity. }
  split; [exact Hin|].
  exact (visited_under_seed Demo.world Demo.cfg 10 _ Hin).
Defined.

(** The prefix is one of text: an [href] with a scheme is queued as it is
    written, so under the seed [https://example.com/docs/] the link
    [https://example.com/docs/../x] is returned by the extraction and
    passes the test of line 163, while the address it resolves to,
    [https://example.com/x], does not start with the seed. *)
Lemma prefix_test_is_textual :
  let seed := "https://example.com/docs/" in
  let href := "https://example.com/docs/../x" in
  let page := {| location_href := seed; anchors := [Some href] |} in
  getLinksFromPage Demo.world page "example.com" = Some [href] /\
  JS.startsWith href seed = true /\
  (exists x, newURL Demo.world href seed = Some x /\
             url_href x = "https://example.com/x" /\
             JS.startsWith (url_href x) seed = false) /\
  queue (checkLink {| cfg_url := seed; cfg_resolutions := ["800x600"];
                      cfg_domain := "example.com" |}
           {| queue := []; visited := {[ seed ]}; visitedCount := 1; log := [] |} href)
    = [href].
Proof.
  cbv zeta. split; [reflexivity|]. split; [reflexivity|]. split.
  - eexists. split; [reflexivity|]. split; reflexivity.
  - vm_compute. reflexivity.
Qed.

Lemma seed_navigation_fails_witness :
  let cfg := {| cfg_url := "https://example.com/b"; cfg_resolutions := ["800x600"];
                cfg_domain := "example.com" |} in
  page_goto Demo.world 1 (cfg_url cfg) = None /\
  captureScreenshotsForAllPages Demo.world cfg 5 =
  Done {| queue := []; visited := {[ cfg_url cfg ]}; visitedCount := 1;
          log := [Shift (cfg_url cfg); Goto (cfg_url cfg) false] |}.
Proof.
  cbv zeta. split; [reflexivity|].
  exact (seed_navigation_fails Demo.world
           {| cfg_url := "https://example.com/b"; cfg_resolutions := ["800x600"];
              cfg_domain := "example.com" |} 4 eq_refl).
Defined.

(** On the nested site the third turn, on [/a], ends the run: the
    directory of [/a/1024x768.png] is where the second screenshot of [/a]
    has to be written, so [/a] is left with two screenshots taken, one file
    written and its links not extracted. *)
Lemma nested_site_run :
  let a := "https://example.com/a" in
  exists s,
    captureScreenshotsForAllPages Demo.nested Demo.cfg 3 = Aborted s /\
    queue s = [] /\ visitedCount s = 3 /\
    directoryFor Demo.nested "https://example.com/a/1024x768.png"
      = Some "/work/images/example.com/a/1024x768.png" /\
    captureScreenshotsForPage Demo.nested a (cfg_resolutions Demo.cfg)
      (firstn 23 (log s))
      = CaptureThrew [EnsureDir "/work/images/example.com/a";
                      Screenshot a "800x600" (Number "800") (Number "600");
                      WriteFile "/work/images/example.com/a/800x600.png";
                      Screenshot a "1024x768" (Number "1024") (Number "768")] /\
    skipn 20 (log s)
      = [Shift a; Goto a true; CapturePage a;
         EnsureDir "/work/images/example.com/a";
         Screenshot a "800x600" (Number "800") (Number "600");
         WriteFile "/work/images/example.com/a/800x600.png";
         Screenshot a "1024x768" (Number "1024") (Number "768")] /\
    times Shot a (log s) = 2 /\ times Extract a (log s) = 0 /\
    fails Demo.nested (log s) (WriteFile "/work/images/example.com/a/1024x768.png") = true.
Proof.
  cbv zeta. eexists. split; [vm_compute; reflexivity|].
  repeat split; vm_compute; reflexivity.
Qed.

Lemma aborted_run_shape_witness :
  exists s,
    captureScreenshotsForAllPages Demo.nested Demo.cfg 3 = Aborted s /\
    exists u page before,
      u ∈ visited s /\ page_goto Demo.nested (visitedCount s) u = Some page /\
      ((exists went,
          captureScreenshotsForPage Demo.nested u (cfg_resolutions Demo.cfg)
            (before ++ [Goto u true; CapturePage u])%list = CaptureThrew went /\
          log s = (before ++ [Goto u true; CapturePage u] ++ went)%list /\
          ((directoryFor Demo.nested u = None /\ went = []) \/
           exists directory op rest,
             directoryFor Demo.nested u = Some directory /\
             captureCalls u directory (cfg_resolutions Demo.cfg) = (went ++ op :: rest)%list /\
             fails Demo.nested (before ++ [Goto u true; CapturePage u] ++ went)%list op
               = true)) \/
       (exists went,
          captureScreenshotsForPage Demo.nested u (cfg_resolutions Demo.cfg)
            (before ++ [Goto u true; CapturePage u])%list = Captured went /\
          (fails Demo.nested (before ++ [Goto u true; CapturePage u] ++ went)%list
             (GetLinks u) = true \/
           getLinksFromPage Demo.nested page (cfg_domain Demo.cfg) = None) /\
          written went = filesOf Demo.nested Demo.cfg u /\
          log s = (before ++ [Goto u true; CapturePage u] ++ went ++ [GetLinks u])%list)).
Proof.
  eexists. split; [vm_compute; reflexivity|].
  apply (aborted_run_shape Demo.nested Demo.cfg 3). vm_compute. reflexivity.
Defined.

Lemma capture_throws_without_segments_witness :
  (forall piece, In piece (JS.split "/" "https://") -> piece = "" \/ piece = "https:") /\
  captureScreenshotsForPage Demo.world "https://" ["800x600"] [] = CaptureThrew [].
Proof.
  assert (forall piece, In piece (JS.split "/" "https://") ->
                        piece = "" \/ piece = "https:") as Hall.
  { intros piece [<-|[<-|[<-|[]]]]; tauto. }
  split; [exact Hall|].
  pose proof (capture_throws_without_segments Demo.world "https://" ["800x600"] [])
    as (Hnone & Hthrows & _).
  exact (Hthrows (proj2 Hnone Hall)).
Defined.

Lemma strip_clean_segments_witness :
  (forall c, JS.has_char c "about" = true -> unsafe_char c = false) /\
  JS.strip unsafe_char "about" = "about".
Proof.
  assert (forall c, JS.has_char c "about" = true -> unsafe_char c = false) as Hclean.
  { intros c Hc. cbn [JS.has_char] in Hc.
    repeat (apply orb_true_iff in Hc; destruct Hc as [Hc|Hc];
            [apply Ascii.eqb_eq in Hc; subst c; reflexivity|]).
    discriminate Hc. }
  split; [exact Hclean|].
  exact (proj1 (strip_clean_segments unsafe_char "about" "") Hclean).
Defined.

Lemma screenshots_complete_per_page_witness :
  let l := log (final (captureScreenshotsForAllPages Demo.world Demo.cfg 10)) in
  In (GetLinks "https://example.com/a") l /\
  times Shot "https://example.com/a" l = 2.
Proof.
  cbv zeta.
  assert (In (GetLinks "https://example.com/a")
            (log (final (captureScreenshotsForAllPages Demo.world Demo.cfg 10)))) as Hin.
  { vm_compute. tauto. }
  split; [exact Hin|].
  exact (proj1 (screenshots_complete_per_page Demo.world Demo.cfg 10
                  "https://example.com/a") Hin).
Defined.

Lemma extraction_in_document_order_witness :
  scanAnchors Demo.world "https://example.com/" "example.com" [Some "/a"; Some "/b"] []
    = Some ["https://example.com/a"; "https://example.com/b"] /\
  scanAnchors Demo.world "https://example.com/" "example.com"
    [Some "/a"; Some "/b"; Some "/a"; Some "/b"] []
    = Some ["https://example.com/a"; "https://example.com/b";
            "https://example.com/a"; "https://example.com/b"].
Proof.
  split; [reflexivity|].
  exact (proj2 (proj2 (extraction_in_document_order Demo.world "https://example.com/"
                         "example.com" [Some "/a"; Some "/b"] [] []))
           ["https://example.com/a"; "https://example.com/b"] eq_refl).
Defined.
